(** * Nested attribute store and JSOG decoder of backbone-for-react

    A shallow embedding of [jsog-decode.js] (the re-entrant JSOG decoder) and
    of the [get]/[set] overrides of [ReactBackbone.Model] in [index.js].

    JavaScript objects have identity and are mutated in place, and the
    properties checked here are about identity (shared references, cycles,
    aliasing between a value handed out by [get] and a later [set]).  The
    embedding therefore keeps an explicit heap: a value is a scalar or a
    reference into a list of objects, [{}] and [[]] allocate at the end of
    that list, and a property assignment updates the object at its index.

    The paging, query-parameter and sorting methods of
    [ReactBackbone.Collection] are embedded as functions on a record of the
    fields they use; the [params] object lives in the same heap.

    Scope of the value universe: JSON data plus [undefined].  Numbers are
    integers, there are no function values and no prototype chain, so a
    property lookup sees own properties only (and [length]/indices of arrays
    and strings). *)

From Stdlib Require Import ZArith Ascii String List Bool Lia.
From stdpp Require Import base option list strings pretty gmap.

Open Scope string_scope.
Open Scope list_scope.

(** ** Values and heap *)

Abbreviation loc := nat.

Inductive value : Type :=
| VUndef
| VNull
| VBool (b : bool)
| VNum (z : Z)
| VStr (s : string)
| VRef (l : loc).

(** A plain object keeps its own properties in enumeration order; an array
    keeps its elements and, separately, any named properties assigned to it. *)
Inductive obj : Type :=
| OObj (fs : list (string * value))
| OArr (xs : list value) (ps : list (string * value)).

Abbreviation heap := (list obj).

#[global] Instance value_eq_dec : EqDecision value.
Proof. solve_decision. Defined.

#[global] Instance obj_eq_dec : EqDecision obj.
Proof. solve_decision. Defined.

(** ** Outcome of a computation: a result, a thrown [TypeError], or recursion
    deeper than the budget the caller supplied. *)

Inductive res (A : Type) : Type :=
| Ok (a : A)
| Throw
| OutOfFuel.
Arguments Ok {A} a.
Arguments Throw {A}.
Arguments OutOfFuel {A}.

Definition bind {A B} (m : res A) (k : A -> res B) : res B :=
  match m with
  | Ok a => k a
  | Throw => Throw
  | OutOfFuel => OutOfFuel
  end.

Notation "'do' x <- m ; k" := (bind m (fun x => k))
  (at level 10, x name, m at level 100, k at level 200).
Notation "'do' ' p <- m ; k" := (bind m (fun p => k))
  (at level 10, p pattern, m at level 100, k at level 200).

(** ** Association lists for own properties *)

Fixpoint assoc (k : string) (fs : list (string * value)) : option value :=
  match fs with
  | [] => None
  | (k', v) :: r => if String.eqb k k' then Some v else assoc k r
  end.

(** [o[k] = v]: overwrite in place when [k] is present, append otherwise. *)
Fixpoint assoc_set (k : string) (v : value) (fs : list (string * value))
  : list (string * value) :=
  match fs with
  | [] => [(k, v)]
  | (k', v') :: r =>
      if String.eqb k k' then (k, v) :: r else (k', v') :: assoc_set k v r
  end.

Definition or_undef (o : option value) : value :=
  match o with Some v => v | None => VUndef end.

(** ** Array indices: a key is an index when it is the canonical decimal
    spelling of a natural number. *)

Definition digit_of (c : Ascii.ascii) : option nat :=
  let n := Ascii.nat_of_ascii c in
  if (48 <=? n)%nat && (n <=? 57)%nat then Some (n - 48)%nat else None.

Fixpoint digits_val (s : string) (acc : nat) : option nat :=
  match s with
  | EmptyString => Some acc
  | String c r =>
      match digit_of c with
      | Some d => digits_val r (10 * acc + d)%nat
      | None => None
      end
  end.

Definition array_index (k : string) : option nat :=
  match k with
  | EmptyString => None
  | _ =>
      match digits_val k 0 with
      | Some n => if String.eqb (pretty n) k then Some n else None
      | None => None
      end
  end.

(** ** JavaScript primitives used by the two files *)

(** [typeof v === "object"]: true for objects, arrays and [null]. *)
Definition typeof_object (v : value) : bool :=
  match v with
  | VNull | VRef _ => true
  | _ => false
  end.

(** [nullOrUndefined], also the meaning of [v == null]. *)
Definition nullOrUndefined (v : value) : bool :=
  match v with
  | VUndef | VNull => true
  | _ => false
  end.

Definition JSOG_OBJECT_DECODED : string := "__jsogObjectDecoded".

Definition alloc (h : heap) (o : obj) : heap * loc := (h ++ [o], List.length h).

(** [v[k]] as an rvalue.  Reading a property of [null] or [undefined] throws. *)
Definition getProp (h : heap) (v : value) (k : string) : res value :=
  match v with
  | VUndef | VNull => Throw
  | VBool _ | VNum _ => Ok VUndef
  | VStr s =>
      if String.eqb k "length" then Ok (VNum (Z.of_nat (String.length s)))
      else match array_index k with
           | Some i =>
               match String.get i s with
               | Some c => Ok (VStr (String c EmptyString))
               | None => Ok VUndef
               end
           | None => Ok VUndef
           end
  | VRef l =>
      match h !! l with
      | Some (OObj fs) => Ok (or_undef (assoc k fs))
      | Some (OArr xs ps) =>
          if String.eqb k "length" then Ok (VNum (Z.of_nat (List.length xs)))
          else match array_index k with
               | Some i => Ok (or_undef (xs !! i))
               | None => Ok (or_undef (assoc k ps))
               end
      | None => Ok VUndef
      end
  end.

(** [v[k] = x] in strict mode.  Assigning through [null], [undefined] or a
    primitive throws.  An array grows (with holes read as [undefined]) when
    the index is past its end; assigning [length] truncates or extends. *)
Definition setProp (h : heap) (v : value) (k : string) (x : value) : res heap :=
  match v with
  | VRef l =>
      match h !! l with
      | Some (OObj fs) => Ok (<[l := OObj (assoc_set k x fs)]> h)
      | Some (OArr xs ps) =>
          if String.eqb k "length" then
            match x with
            | VNum z =>
                if (0 <=? z)%Z then
                  let n := Z.to_nat z in
                  Ok (<[l := OArr (take n xs ++ replicate (n - List.length xs) VUndef) ps]> h)
                else Throw
            | _ => Throw
            end
          else match array_index k with
               | Some i =>
                   if (i <? List.length xs)%nat
                   then Ok (<[l := OArr (<[i := x]> xs) ps]> h)
                   else Ok (<[l := OArr (xs ++ replicate (i - List.length xs) VUndef ++ [x]) ps]> h)
               | None => Ok (<[l := OArr xs (assoc_set k x ps)]> h)
               end
      | None => Ok h
      end
  | _ => Throw
  end.

Fixpoint join_comma (ss : list string) : string :=
  match ss with
  | [] => ""
  | [s] => s
  | s :: r => s +:+ "," +:+ join_comma r
  end.

Fixpoint mapM {A B} (f : A -> res B) (l : list A) : res (list B) :=
  match l with
  | [] => Ok []
  | a :: r => do b <- f a; do bs <- mapM f r; Ok (b :: bs)
  end.

(** [v.toString()] for the values an [@id] or [@ref] field can hold.  The
    caller has already excluded [null] and [undefined]. *)
Fixpoint toString (n : nat) (h : heap) (v : value) : res string :=
  match v with
  | VUndef | VNull => Throw
  | VBool b => Ok (if b then "true" else "false")
  | VNum z => Ok (pretty z)
  | VStr s => Ok s
  | VRef l =>
      match h !! l with
      | Some (OArr xs _) =>
          match n with
          | O => OutOfFuel
          | S n' =>
              do ss <- mapM (fun x => if nullOrUndefined x then Ok ""
                                      else toString n' h x) xs;
              Ok (join_comma ss)
          end
      | _ => Ok "[object Object]"
      end
  end.

(** ** jsog-decode.js *)

(** The registry [found]: id string to the result object registered for it. *)
Abbreviation registry := (gmap string loc).

Abbreviation dstate := (heap * registry)%type.

(** [found[ref]] *)
Definition found_get (found : registry) (s : string) : value :=
  match found !! s with
  | Some l => VRef l
  | None => VUndef
  end.

Definition has_marker (fs : list (string * value)) : bool :=
  bool_decide (assoc JSOG_OBJECT_DECODED fs = Some (VBool true)).

Section decode_step.
(** The recursive call [doDecode(value)], one level shallower. *)
Variable dec : heap -> registry -> value -> res (heap * registry * value).

(** The [for (key in encoded)] loop of [decodeObject], over the properties
    [encoded] has when the loop starts; [result] is the object at [r]. *)
Fixpoint decodeFields (r : loc) (fs : list (string * value))
         (h : heap) (found : registry) : res dstate :=
  match fs with
  | [] => Ok (h, found)
  | (key, value) :: rest =>
      if String.eqb key "@id" then decodeFields r rest h found
      else
        do '(h1, f1, v) <- dec h found value;
        do h2 <- setProp h1 (VRef r) key v;
        decodeFields r rest h2 f1
  end.

(** The loop of [decodeArray], over the elements [encoded] has when the
    loop starts: [results.push(doDecode(encoded[i]))]; [results] is the
    array at [r]. *)
Fixpoint decodeElems (r : loc) (xs : list value)
         (h : heap) (found : registry) : res dstate :=
  match xs with
  | [] => Ok (h, found)
  | value :: rest =>
      do '(h1, f1, v) <- dec h found value;
      let h2 := match h1 !! r with
                | Some (OArr rs ps) => <[r := OArr (rs ++ [v]) ps]> h1
                | _ => h1
                end in
      decodeElems r rest h2 f1
  end.

Definition decodeObject (fuel : nat) (l : loc) (fs : list (string * value))
           (h : heap) (found : registry) : res (heap * registry * value) :=
  if has_marker fs then Ok (h, found, VRef l)
  else
    let ref := or_undef (assoc "@ref" fs) in
    if negb (nullOrUndefined ref) then
      do s <- toString fuel h ref;
      Ok (h, found, found_get found s)
    else
      let '(h1, r) := alloc h (OObj []) in
      let id := or_undef (assoc "@id" fs) in
      do ids <- (if nullOrUndefined id then Ok None
                 else do s <- toString fuel h1 id; Ok (Some s));
      let found1 := match ids with
                    | Some s => if String.eqb s "" then found
                                else <[s := r]> found
                    | None => found
                    end in
      do '(h2, f2) <- decodeFields r fs h1 found1;
      do h3 <- setProp h2 (VRef r) JSOG_OBJECT_DECODED (VBool true);
      Ok (h3, f2, VRef r).

Definition decodeArray (xs : list value) (h : heap) (found : registry)
  : res (heap * registry * value) :=
  let '(h1, r) := alloc h (OArr [] []) in
  do '(h2, f2) <- decodeElems r xs h1 found;
  Ok (h2, f2, VRef r).
End decode_step.

(** A reference always names an object of the heap; for a reference to
    nothing there is no behaviour to model and the embedding stops. *)
Fixpoint doDecode (n : nat) (h : heap) (found : registry) (encoded : value)
  : res (heap * registry * value) :=
  match n with
  | O => OutOfFuel
  | S n' =>
      match encoded with
      | VUndef | VNull => Ok (h, found, encoded)
      | VRef l =>
          match h !! l with
          | Some (OArr xs _) => decodeArray (doDecode n') xs h found
          | Some (OObj fs) => decodeObject (doDecode n') n' l fs h found
          | None => Throw
          end
      | _ => Ok (h, found, encoded)
      end
  end.

(** [module.exports]: a fresh registry for every top-level call. *)
Definition decode (n : nat) (h : heap) (encoded : value) : res (heap * value) :=
  do '(h', _, v) <- doDecode n h ∅ encoded;
  Ok (h', v).

(** ** underscore: [_.clone] and [_.isEqual] *)

(** underscore is a dependency of the repository; the two functions [set]
    calls are given here with the behaviour they have on plain data. *)

(** [_.clone]: a shallow copy of an object ([_.extend({}, obj)]) or of an
    array ([obj.slice()], elements only); any other value is returned as is. *)
Definition clone (h : heap) (v : value) : heap * value :=
  match v with
  | VRef l =>
      match h !! l with
      | Some (OObj fs) => let '(h', c) := alloc h (OObj fs) in (h', VRef c)
      | Some (OArr xs _) => let '(h', c) := alloc h (OArr xs []) in (h', VRef c)
      | None => (h, v)
      end
  | _ => (h, v)
  end.

(** Short-circuit conjunction, as the [return false] inside the loops of
    underscore's [deepEq]. *)
Fixpoint allM {A} (f : A -> res bool) (l : list A) : res bool :=
  match l with
  | [] => Ok true
  | a :: r => do b <- f a; if b then allM f r else Ok false
  end.

(** [_.isEqual(a, b)]: identical references and equal scalars are equal;
    two arrays are compared by length and then element by element from the
    end; two objects by their number of keys and then, for each key of [a]
    from the last one, by [b] having the key with an equal value.  Every
    level of nesting entered takes one unit of the budget [n]; a comparison
    that runs into a cycle, which underscore cuts short with its stack of
    visited pairs, uses up any budget here. *)
Fixpoint isEqual (n : nat) (h : heap) (a b : value) : res bool :=
  match a, b with
  | VRef la, VRef lb =>
      if decide (la = lb) then Ok true
      else
        match h !! la, h !! lb with
        | Some (OArr xs _), Some (OArr ys _) =>
            if negb (List.length xs =? List.length ys)%nat then Ok false
            else match n with
                 | O => OutOfFuel
                 | S n' => allM (fun p => isEqual n' h p.1 p.2)
                                (rev (zip xs ys))
                 end
        | Some (OObj fa), Some (OObj fb) =>
            if negb (List.length fa =? List.length fb)%nat then Ok false
            else match n with
                 | O => OutOfFuel
                 | S n' =>
                     allM (fun p => match assoc p.1 fb with
                                    | Some y => isEqual n' h p.2 y
                                    | None => Ok false
                                    end)
                          (rev fa)
                 end
        | _, _ => Ok false
        end
  | _, _ => Ok (bool_decide (a = b))
  end.

(** ** index.js: the model *)

(** Backbone's [Model] is the base class: its [get], [set] and [trigger] are
    the collaborators [oldGet], [oldSet] and [this.trigger]. *)

(** An argument handed to an event listener: the model itself or a value. *)
Inductive arg : Type :=
| AModel
| AVal (v : value).

Record event : Type := Event { ev_name : string; ev_args : list arg }.

#[global] Instance arg_eq_dec : EqDecision arg.
Proof. solve_decision. Defined.

#[global] Instance event_eq_dec : EqDecision event.
Proof. solve_decision. Defined.

(** The heap, the attribute bag [this.attributes] and the log of the calls
    to [this.trigger], oldest first. *)
Record mstate : Type := MState {
  st_heap : heap;
  attributes : gmap string value;
  triggered : list event
}.

Definition with_heap (st : mstate) (h : heap) : mstate :=
  MState h (attributes st) (triggered st).

Definition trigger (st : mstate) (name : string) (args : list arg) : mstate :=
  MState (st_heap st) (attributes st) (triggered st ++ [Event name args]).

(** Backbone's own [get]: [this.attributes[attr]]. *)
Definition oldGet (st : mstate) (attr : string) : value :=
  or_undef (attributes st !! attr).

(** [attribute.split(".")]: never empty. *)
Fixpoint split_dot (s : string) : list string :=
  match s with
  | EmptyString => [""]
  | String c r =>
      if Ascii.eqb c "."%char then "" :: split_dot r
      else match split_dot r with
           | x :: xs => String c x :: xs
           | [] => [String c EmptyString]
           end
  end.

(** The [while] loop of [get].  No value of this universe has a function
    under [get], so [typeof val.get === "function"] is false and the loop
    always takes [val = val[pc]]. *)
Fixpoint get_loop (h : heap) (val : value) (pcs : list string) : res value :=
  match pcs with
  | [] => Ok val
  | pc :: rest =>
      if nullOrUndefined val then Ok val
      else do val' <- getProp h val pc; get_loop h val' rest
  end.

Definition get (st : mstate) (attribute : string) : res value :=
  match split_dot attribute with
  | firstPc :: ((_ :: _) as pcs) => get_loop (st_heap st) (oldGet st firstPc) pcs
  | _ => Ok (oldGet st attribute)
  end.

Definition truthy (v : value) : bool :=
  match v with
  | VUndef | VNull | VBool false | VNum Z0 | VStr EmptyString => false
  | _ => true
  end.

(** Backbone's own [set] for one attribute, the collaborator behind
    [oldSet]: store the value and, unless silenced, announce a change.  Its
    bookkeeping of [changed] and [_previousAttributes] is not part of the
    state kept here, and of the options only [silent] is interpreted. *)
Definition oldSet (n : nat) (st : mstate) (k : string) (v options : value)
           (silent : bool) : res mstate :=
  let st1 := MState (st_heap st) (<[k := v]> (attributes st)) (triggered st) in
  if silent then Ok st1
  else
    do same <- isEqual n (st_heap st) (oldGet st k) v;
    if same then Ok st1
    else Ok (trigger (trigger st1 ("change:" +:+ k) [AModel; AVal v; AVal options])
                     "change" [AModel; AVal options]).

(** The [while (pcs.length > 1)] loop of [set]: [pc] is the head of [pcs] and
    [rest] its tail.  Every step reads and writes through [toSet]; the result
    is the final [ptr] and the last piece. *)
Fixpoint set_walk (h : heap) (toSet ptr : value) (pc : string)
         (rest : list string) : res (heap * value * string) :=
  match rest with
  | [] => Ok (h, ptr, pc)
  | pc' :: rest' =>
      do x <- getProp h toSet pc;
      do h1 <- (if typeof_object x then Ok h
                else let '(h', e) := alloc h (OObj []) in
                     setProp h' toSet pc (VRef e));
      do p <- getProp h1 toSet pc;
      set_walk h1 toSet p pc' rest'
  end.

(** The callback of [_.each(attrHash, ...)]: one [(attribute, value)] pair.
    The flag is [triggerChange]. *)
Definition set_one (n : nat) (options : value) (acc : mstate * bool)
           (attribute : string) (value : value) : res (mstate * bool) :=
  let '(st, triggerChange) := acc in
  match split_dot attribute with
  | [] => Ok acc
  | firstPc :: pcs =>
      do top <- get st firstPc;
      let '(h1, topLevelValue) := clone (st_heap st) top in
      match pcs with
      | pc :: rest =>
          let '(h2, toSet) :=
            if typeof_object topLevelValue then (h1, topLevelValue)
            else let '(h', e) := alloc h1 (OObj []) in (h', VRef e) in
          do '(h3, ptr, lastPc) <- set_walk h2 toSet toSet pc rest;
          do oldVal <- get (with_heap st h3) attribute;
          do same <- isEqual n h3 oldVal value;
          if same then Ok (with_heap st h3, triggerChange)
          else
            do h4 <- setProp h3 ptr lastPc value;
            do st1 <- oldSet n (with_heap st h4) firstPc toSet options true;
            Ok (trigger st1 ("change:" +:+ attribute)
                        [AModel; AVal value; AVal options], true)
      | [] =>
          do same <- isEqual n h1 value topLevelValue;
          if same then Ok (with_heap st h1, triggerChange)
          else
            do st1 <- oldSet n (with_heap st h1) firstPc value options true;
            Ok (trigger st1 ("change:" +:+ firstPc)
                        [AModel; AVal value; AVal options], true)
      end
  end.

Fixpoint set_each (n : nat) (options : value) (acc : mstate * bool)
         (attrHash : list (string * value)) : res (mstate * bool) :=
  match attrHash with
  | [] => Ok acc
  | (attribute, value) :: rest =>
      do acc' <- set_one n options acc attribute value;
      set_each n options acc' rest
  end.

(** What [_.each] enumerates: own properties of an object; indices of an
    array (the numeric index becomes its decimal string); nothing for
    [null]. *)
Definition each_pairs (h : heap) (key : value) : list (string * value) :=
  match key with
  | VRef l =>
      match h !! l with
      | Some (OObj fs) => fs
      | Some (OArr xs _) => imap (fun i x => (pretty i, x)) xs
      | None => []
      end
  | _ => []
  end.

Definition finish_set (options : value) (acc : mstate * bool) : mstate :=
  if acc.2 then trigger acc.1 "change" [AModel; AVal options] else acc.1.

(** [set(key, val, options)] *)
Definition set (n : nat) (st : mstate) (key val options : value) : res mstate :=
  match key with
  | VStr s =>
      do acc <- set_each n options (st, false) [(s, val)];
      Ok (finish_set options acc)
  | VNull | VRef _ =>
      let '(h1, options') :=
        if truthy val then (st_heap st, val)
        else let '(h', e) := alloc (st_heap st) (OObj []) in (h', VRef e) in
      do acc <- set_each n options' (with_heap st h1, false)
                         (each_pairs h1 key);
      Ok (finish_set options' acc)
  | VUndef => Ok st
  | VBool b => oldSet n st (if b then "true" else "false") val options
                      (match getProp (st_heap st) options "silent" with
                       | Ok s => truthy s
                       | _ => false
                       end)
  | VNum z => oldSet n st (pretty z) val options
                     (match getProp (st_heap st) options "silent" with
                      | Ok s => truthy s
                      | _ => false
                      end)
  end.

Definition empty_model : mstate := MState [] ∅ [].

(** ** Relations between heaps *)

(** Every object of [h] is still there, unchanged, in [h']. *)
Definition heap_le (h h' : heap) : Prop :=
  forall l o, h !! l = Some o -> h' !! l = Some o.

(** The same, except possibly at [r]. *)
Definition heap_le_but (r : loc) (h h' : heap) : Prop :=
  forall l o, l <> r -> h !! l = Some o -> h' !! l = Some o.

Definition is_obj (h : heap) (r : loc) : Prop :=
  exists fs, h !! r = Some (OObj fs).

Definition is_arr (h : heap) (r : loc) : Prop :=
  exists xs ps, h !! r = Some (OArr xs ps).

(** ** Input trees *)

(** [v] is JSON data laid out in [h]: following references from [v] one
    reaches scalars after at most [n] levels of objects and arrays. *)
Fixpoint is_tree (n : nat) (h : heap) (v : value) : bool :=
  match v with
  | VRef l =>
      match n with
      | O => false
      | S n' =>
          match h !! l with
          | Some (OObj fs) => forallb (fun p => is_tree n' h p.2) fs
          | Some (OArr xs _) => forallb (is_tree n' h) xs
          | None => false
          end
      end
  | _ => true
  end.

(** An input tree none of whose objects has a [__jsogObjectDecoded]
    property. *)
Fixpoint raw_tree (n : nat) (h : heap) (v : value) : bool :=
  match v with
  | VRef l =>
      match n with
      | O => false
      | S n' =>
          match h !! l with
          | Some (OObj fs) =>
              bool_decide (assoc JSOG_OBJECT_DECODED fs = None)
              && forallb (fun p => raw_tree n' h p.2) fs
          | Some (OArr xs _) => forallb (raw_tree n' h) xs
          | None => false
          end
      end
  | _ => true
  end.

(** The values an object holds. *)
Definition vals (o : obj) : list value :=
  match o with
  | OObj fs => map snd fs
  | OArr xs ps => xs ++ map snd ps
  end.

(** [reach h v l]: the object at [l] can be reached from the value [v] by
    following properties and elements. *)
Inductive reach (h : heap) : value -> loc -> Prop :=
| reach_here l : reach h (VRef l) l
| reach_step v l o l' :
    reach h v l -> h !! l = Some o -> In (VRef l') (vals o) -> reach h v l'.

(** A value that does not point below [N], the size of the input heap. *)
Definition fresh_val (N : nat) (v : value) : Prop :=
  match v with
  | VRef l => (N <= l)%nat
  | _ => True
  end.

(** Everything allocated from [N] on holds only such values, and every plain
    object there carries the marker unless it is still being filled ([P]). *)
Definition region_ok (N : nat) (P : loc -> Prop) (h : heap) : Prop :=
  forall l o, (N <= l)%nat -> h !! l = Some o ->
    Forall (fresh_val N) (vals o) /\
    (forall fs, o = OObj fs -> has_marker fs = true \/ P l).

Definition reg_fresh (N : nat) (f : registry) : Prop :=
  forall s l, f !! s = Some l -> (N <= l)%nat.

(** ** Decoded values *)

(** [settled n P h v]: [v] is a scalar, an object that carries the marker
    (or is still being filled, [P]), or a finished array, nested at most [n]
    deep, of such values. *)
Fixpoint settled (n : nat) (P : loc -> Prop) (h : heap) (v : value) : Prop :=
  match v with
  | VRef l =>
      match h !! l with
      | Some (OObj fs) => has_marker fs = true \/ P l
      | Some (OArr xs _) =>
          ~ P l /\
          match n with
          | O => False
          | S n' => Forall (settled n' P h) xs
          end
      | None => False
      end
  | _ => True
  end.

Definition reg_settled (P : loc -> Prop) (h : heap) (f : registry) : Prop :=
  forall s l, f !! s = Some l ->
    exists fs, h !! l = Some (OObj fs) /\ (has_marker fs = true \/ P l).

(** From [h] to [h']: an object stays an object and keeps its marker, an
    array that is not being filled stays as it is. *)
Definition stable (P : loc -> Prop) (h h' : heap) : Prop :=
  forall l,
    (forall fs, h !! l = Some (OObj fs) ->
       exists fs', h' !! l = Some (OObj fs') /\
                   (has_marker fs = true -> has_marker fs' = true \/ P l)) /\
    (forall xs ps, h !! l = Some (OArr xs ps) -> ~ P l ->
       h' !! l = Some (OArr xs ps)).

(** [g'] is [g] again, except that every array (nested through arrays only)
    is a new array, allocated at [N] or later and before the new arrays of
    its elements, with the corresponding elements. *)
Fixpoint same_but_arrays (n : nat) (N : nat) (h : heap) (g g' : value) : Prop :=
  match g with
  | VRef l =>
      match h !! l with
      | Some (OArr xs _) =>
          exists l' ys, g' = VRef l' /\ (N <= l')%nat /\ l' <> l /\
                        h !! l' = Some (OArr ys []) /\
                        match n with
                        | O => False
                        | S n' => Forall2 (same_but_arrays n' (S l') h) xs ys
                        end
      | _ => g' = g
      end
  | _ => g' = g
  end.

(** ** Well-formed states *)

(** A reference names an object of the heap. *)
Definition val_ok (h : heap) (v : value) : bool :=
  match v with
  | VRef l => bool_decide (l < List.length h)%nat
  | _ => true
  end.

(** An object has each property once and holds valid values. *)
Definition obj_ok (h : heap) (o : obj) : bool :=
  match o with
  | OObj fs =>
      bool_decide (NoDup (map fst fs)) && forallb (val_ok h) (map snd fs)
  | OArr xs ps =>
      bool_decide (NoDup (map fst ps)) && forallb (val_ok h) (xs ++ map snd ps)
  end.

Definition heap_ok (h : heap) : bool := forallb (obj_ok h) h.

Definition wf_state (st : mstate) : bool :=
  heap_ok (st_heap st)
  && forallb (fun kv => val_ok (st_heap st) kv.2) (map_to_list (attributes st)).

(** Neither [null] nor an array: a plain object, a scalar or [undefined]. *)
Definition plain (h : heap) (v : value) : bool :=
  match v with
  | VNull => false
  | VRef l => match h !! l with Some (OObj _) => true | _ => false end
  | _ => true
  end.

(** The pieces the [while] loop of [set] goes through: all but the last. *)
Fixpoint walked (pc : string) (rest : list string) : list string :=
  match rest with
  | [] => []
  | pc' :: rest' => pc :: walked pc' rest'
  end.

(** When the loop of [set] gets through a top-level value [top]: not at all
    for [null] (unless there is nothing to walk), and for an array only if
    no walked piece is [length]. *)
Definition walk_cond (h : heap) (top : value) (pc : string)
           (rest : list string) : Prop :=
  match top with
  | VNull => rest = []
  | VRef l => is_arr h l -> Forall (fun k => k <> "length") (walked pc rest)
  | _ => True
  end.

(** The [change:<attribute>] event [set] fires for one pair. *)
Definition change_event (options : value) (pair : string * value) : event :=
  Event ("change:" +:+ pair.1) [AModel; AVal pair.2; AVal options].

(** The first piece of a path. *)
Definition first_piece (p : string) : string :=
  match split_dot p with
  | a :: _ => a
  | [] => p
  end.

(** ** index.js: the collection *)

(** Numbers of the paging arithmetic.  Page numbers, page sizes and record
    counts are integers; dividing by a page size of zero leaves the integers,
    so the three special values of a JavaScript number are kept. *)
Inductive number : Type :=
| Finite (z : Z)
| Infinity
| NegInfinity
| NaN.

#[global] Instance number_eq_dec : EqDecision number.
Proof. solve_decision. Defined.

(** [Math.ceil(a / b)] for integers [a] and [b]. *)
Definition ceil_div (a b : Z) : number :=
  if (b =? 0)%Z then
    if (0 <? a)%Z then Infinity else if (a <? 0)%Z then NegInfinity else NaN
  else Finite (- ((- a) / b))%Z.

(** [x + d] for an integer [d]. *)
Definition num_plus (x : number) (d : Z) : number :=
  match x with
  | Finite z => Finite (z + d)
  | _ => x
  end.

(** [x * z] for an integer [z]. *)
Definition num_times (x : number) (z : Z) : number :=
  match x with
  | Finite a => Finite (a * z)
  | Infinity =>
      if (0 <? z)%Z then Infinity else if (z <? 0)%Z then NegInfinity else NaN
  | NegInfinity =>
      if (0 <? z)%Z then NegInfinity else if (z <? 0)%Z then Infinity else NaN
  | NaN => NaN
  end.

Definition Math_min (a b : number) : number :=
  match a, b with
  | NaN, _ | _, NaN => NaN
  | NegInfinity, _ | _, NegInfinity => NegInfinity
  | Infinity, x | x, Infinity => x
  | Finite x, Finite y => Finite (Z.min x y)
  end.

Definition Math_max (a b : number) : number :=
  match a, b with
  | NaN, _ | _, NaN => NaN
  | Infinity, _ | _, Infinity => Infinity
  | NegInfinity, x | x, NegInfinity => x
  | Finite x, Finite y => Finite (Z.max x y)
  end.

(** [Math.round] leaves an integer, an infinity and [NaN] as they are. *)
Definition Math_round (x : number) : number := x.

(** What [_pageNo] holds: [setPageNo] stores its argument, whatever it is,
    before [validatePageNo] looks at it.  Of a value that is not a number the
    code only observes that [_.isNumber] is false. *)
Inductive pageno : Type :=
| PNumber (x : number)
| PNotNumber.

(** An applied sort, [{ attribute: string, desc: boolean }]. *)
Record sort : Type := Sort { attribute : string; desc : bool }.

(** The fields of a collection that its own methods read and write.  The
    page size and the record count are integers, [models] stands for
    [models.length], and [params] is a reference to an object of the heap. *)
Record collection : Type := Collection {
  _pageNo : pageno;
  _pageSize : Z;
  _totalRecords : option Z;
  startParam : string;
  countParam : string;
  sortParam : string;
  sortSeparator : string;
  sorts : list sort;
  maxSorts : Z;
  params : loc;
  server : bool;
  models : nat
}.

Definition with_pageNo (c : collection) (p : pageno) : collection :=
  Collection p (_pageSize c) (_totalRecords c) (startParam c) (countParam c)
             (sortParam c) (sortSeparator c) (sorts c) (maxSorts c) (params c)
             (server c) (models c).

Definition with_pageSize (c : collection) (ps : Z) : collection :=
  Collection (_pageNo c) ps (_totalRecords c) (startParam c) (countParam c)
             (sortParam c) (sortSeparator c) (sorts c) (maxSorts c) (params c)
             (server c) (models c).

Definition with_sorts (c : collection) (s : list sort) : collection :=
  Collection (_pageNo c) (_pageSize c) (_totalRecords c) (startParam c)
             (countParam c) (sortParam c) (sortSeparator c) s (maxSorts c)
             (params c) (server c) (models c).

Definition with_params (c : collection) (l : loc) : collection :=
  Collection (_pageNo c) (_pageSize c) (_totalRecords c) (startParam c)
             (countParam c) (sortParam c) (sortSeparator c) (sorts c)
             (maxSorts c) l (server c) (models c).

(** The values on the prototype; [shared] is the one [params] object that
    every collection starts with. *)
Definition prototype (shared : loc) : collection :=
  Collection (PNumber (Finite 0)) 20 None "start" "count" "sort" "|" [] 3
             shared false 0.

Definition isServerSide (c : collection) : bool := server c.

(** *** Query parameters *)

(** What [_.allKeys] enumerates, with the values: own properties of an
    object; indices, then named properties, of an array (the heap does not
    tell a missing element of a sparse array from an [undefined] one);
    nothing for a value that is not an object. *)
Definition allPairs (h : heap) (v : value) : list (string * value) :=
  match v with
  | VRef l =>
      match h !! l with
      | Some (OObj fs) => fs
      | Some (OArr xs ps) => imap (fun i x => (pretty i, x)) xs ++ ps
      | None => []
      end
  | _ => []
  end.

(** [obj[k] = v] for each pair of one source, in order. *)
Definition assign (fs src : list (string * value)) : list (string * value) :=
  fold_left (fun acc kv => assoc_set kv.1 kv.2 acc) src fs.

(** [_.extend({}, s1, s2)]: a new object that receives the properties of the
    sources, a later one overwriting an earlier one. *)
Definition extend (h : heap) (s1 s2 : value) : heap * loc :=
  alloc h (OObj (assign (assign [] (allPairs h s1)) (allPairs h s2))).

(** [_.omit(obj, key)]: a new object with the properties of [obj] other than
    [key]. *)
Definition omit (h : heap) (o : value) (key : string) : heap * loc :=
  alloc h (OObj (assign []
    (List.filter (fun kv => negb (String.eqb kv.1 key)) (allPairs h o)))).

Definition resetParams (h : heap) (c : collection) : heap * collection :=
  let '(h', l) := alloc h (OObj []) in (h', with_params c l).

(** A key that is not a string leaves the collection as it is (and the
    method then returns [undefined], not the collection). *)
Definition unsetParam (h : heap) (c : collection) (key : value)
  : heap * collection :=
  match key with
  | VStr k =>
      let '(h', l) := omit h (VRef (params c)) k in (h', with_params c l)
  | _ => (h, c)
  end.

Definition setParam (h : heap) (c : collection) (key val : value)
  : heap * collection :=
  if typeof_object key then
    let '(h', l) := extend h (VRef (params c)) key in (h', with_params c l)
  else
    match key with
    | VStr k =>
        let '(h1, setObj) := alloc h (OObj [(k, val)]) in
        let '(h2, l) := extend h1 (VRef (params c)) (VRef setObj) in
        (h2, with_params c l)
    | _ => (h, c)
    end.

(** *** Paging *)

(** [size()]: on a client-side collection Backbone's own [size], the number
    of models. *)
Definition size (c : collection) : Z :=
  if isServerSide c then
    match _totalRecords c with
    | Some t => t
    | None => Z.of_nat (models c)
    end
  else Z.of_nat (models c).

Definition getPageNo (c : collection) : pageno := _pageNo c.

Definition validatePageNo (c : collection) : collection :=
  match _pageNo c with
  | PNotNumber | PNumber NaN => with_pageNo c (PNumber (Finite 0))
  | PNumber x =>
      let p := Math_round x in
      let p :=
        if isServerSide c then
          match _totalRecords c with
          | Some t => Math_min (num_plus (ceil_div t (_pageSize c)) (-1)) p
          | None => p
          end
        else p in
      with_pageNo c (PNumber (Math_max (Finite 0) p))
  end.

Definition setPageNo (pageNo : pageno) (c : collection) : collection :=
  validatePageNo (with_pageNo c pageNo).

(** [_pageNo - 1], [_pageNo + 1] and [_pageNo * _pageSize] are given for a
    page number that is a number, which is what [validatePageNo] leaves; the
    coercion of any other value is outside the embedding. *)
Definition as_number (p : pageno) : option number :=
  match p with
  | PNumber x => Some x
  | PNotNumber => None
  end.

Definition prevPage (c : collection) : option collection :=
  x ← as_number (_pageNo c); Some (setPageNo (PNumber (num_plus x (-1))) c).

Definition nextPage (c : collection) : option collection :=
  x ← as_number (_pageNo c); Some (setPageNo (PNumber (num_plus x 1)) c).

Definition setPageSize (ps : Z) (c : collection) : collection :=
  with_pageSize c ps.

Definition getPageSize (c : collection) : Z := _pageSize c.

Definition getNumPages (c : collection) : number :=
  ceil_div (size c) (getPageSize c).

(** The object returned has one property when both names are the same. *)
Definition getPaginationParams (c : collection)
  : option (list (string * number)) :=
  x ← as_number (_pageNo c);
  Some (if String.eqb (countParam c) (startParam c)
        then [(startParam c, Finite (_pageSize c))]
        else [(startParam c, num_times x (_pageSize c));
              (countParam c, Finite (_pageSize c))]).

(** *** Sorting *)

Definition resetSorts (c : collection) : collection := with_sorts c [].

(** [maxSorts] is not read. *)
Definition addSort (c : collection) (attr descending : value) : collection :=
  match attr with
  | VStr a => with_sorts c (Sort a (truthy descending) :: sorts c)
  | _ => c
  end.

(** The one property of the object returned: its name and its array. *)
Definition getSortParams (c : collection) : string * list string :=
  (sortParam c,
   map (fun oneSort =>
          (if desc oneSort then "D" else "A") +:+ sortSeparator c
            +:+ attribute oneSort)
       (sorts c)).

(** ** Concrete inputs *)

(** [{ "@id": "1", next: { "@id": "2", next: { "@id": "3", next: { "@ref": "1" } } } }] *)
Definition cycle_input : heap :=
  [ OObj [("@id", VStr "1"); ("next", VRef 1)];
    OObj [("@id", VStr "2"); ("next", VRef 2)];
    OObj [("@id", VStr "3"); ("next", VRef 3)];
    OObj [("@ref", VStr "1")] ].

(** [{ one: { "@id": "1", name: "hello" }, two: { "@ref": "1" } }] *)
Definition id_then_ref : heap :=
  [ OObj [("one", VRef 1); ("two", VRef 2)];
    OObj [("@id", VStr "1"); ("name", VStr "hello")];
    OObj [("@ref", VStr "1")] ].

(** [{ two: { "@ref": "1" }, one: { "@id": "1", name: "hello" } }] *)
Definition ref_then_id : heap :=
  [ OObj [("two", VRef 2); ("one", VRef 1)];
    OObj [("@id", VStr "1"); ("name", VStr "hello")];
    OObj [("@ref", VStr "1")] ].

(** The model after [set("a.b.c", 1)] on a fresh model. *)
Definition abc_model : mstate :=
  MState [OObj [("b", VRef 1)]; OObj [("c", VNum 1)]]
         (<["a" := VRef 0]> ∅)
         [Event "change:a.b.c" [AModel; AVal (VNum 1); AVal VUndef];
          Event "change" [AModel; AVal VUndef]].

(** A heap whose only object holds one query parameter, for a collection
    made from [prototype 0]. *)
Definition one_param : heap := [OObj [("q", VStr "x")]].

(** * Properties *)

(** C1, evaluated where it fails: on a fresh model, [set("a.b.c.d", 1)]
    returns normally and fires its events, but the loop indexes [toSet]
    instead of [ptr], so the bag holds [{ b: {}, c: { d: 1 } }] under [a] and
    [get("a.b.c.d")] is [undefined], which is not deep-equal to [1]. *)
Theorem set_get_four_segments :
  exists st,
    set 5 empty_model (VStr "a.b.c.d") (VNum 1) VUndef = Ok st /\
    get st "a.b.c.d" = Ok VUndef /\
    isEqual 5 (st_heap st) VUndef (VNum 1) = Ok false /\
    get st "a.c.d" = Ok (VNum 1) /\
    exists b, get st "a.b" = Ok (VRef b) /\ st_heap st !! b = Some (OObj []).
Proof.
  eexists. split; [vm_compute; reflexivity|].
  repeat split; try (vm_compute; reflexivity).
  exists 1. split; vm_compute; reflexivity.
Qed.

(** C2, evaluated where it fails: after [set("a.b.c", "x")], [obj = get("a.b")]
    and [set("a.b.c", "y")], the object held in [obj] has [c === "y"]: only
    the top level was copied, the nested object was written in place. *)
Theorem set_mutates_captured_object :
  exists st1 obj st2,
    set 5 empty_model (VStr "a.b.c") (VStr "x") VUndef = Ok st1 /\
    get st1 "a.b" = Ok obj /\
    getProp (st_heap st1) obj "c" = Ok (VStr "x") /\
    set 5 st1 (VStr "a.b.c") (VStr "y") VUndef = Ok st2 /\
    isEqual 5 (st_heap st1) (VStr "x") (VStr "y") = Ok false /\
    getProp (st_heap st2) obj "c" = Ok (VStr "y") /\
    get st2 "a.b.c" = Ok (VStr "y").
Proof.
  eexists. eexists. eexists.
  split; [vm_compute; reflexivity|].
  split; [vm_compute; reflexivity|].
  split; [vm_compute; reflexivity|].
  split; [vm_compute; reflexivity|].
  repeat split; vm_compute; reflexivity.
Qed.

(** C4: decoding the three-node cycle gives three fresh, distinct objects
    [A], [B], [C] with [A.next === B], [B.next === C] and [C.next === A]:
    the reference to id 1 met while the fields of [A] are still being
    decoded resolves to the result object registered for [A]. *)
Theorem decode_three_cycle :
  exists h' a b c,
    decode 4 cycle_input (VRef 0) = Ok (h', VRef a) /\
    getProp h' (VRef a) "next" = Ok (VRef b) /\
    getProp h' (VRef b) "next" = Ok (VRef c) /\
    getProp h' (VRef c) "next" = Ok (VRef a) /\
    a <> b /\ b <> c /\ a <> c /\
    (List.length cycle_input <= a)%nat.
Proof.
  exists (cycle_input ++
          [ OObj [("next", VRef 5); (JSOG_OBJECT_DECODED, VBool true)];
            OObj [("next", VRef 6); (JSOG_OBJECT_DECODED, VBool true)];
            OObj [("next", VRef 4); (JSOG_OBJECT_DECODED, VBool true)] ]),
    4%nat, 5%nat, 6%nat.
  repeat split; try (vm_compute; reflexivity); try (cbn; lia).
Qed.



(** ** [get] *)

Lemma getProp_defined h v k :
  nullOrUndefined v = false -> exists x, getProp h v k = Ok x.
Proof.
  destruct v; cbn; try discriminate; intros _; eauto.
  - destruct (String.eqb k "length"); eauto.
    destruct (array_index k); eauto. destruct (String.get n s); eauto.
  - destruct (h !! l) as [[fs|xs ps]|]; eauto.
    destruct (String.eqb k "length"); eauto.
    destruct (array_index k); eauto.
Qed.

Lemma get_loop_total h pcs : forall val, exists x, get_loop h val pcs = Ok x.
Proof.
  induction pcs as [|pc rest IH]; intros val; cbn; eauto.
  destruct (nullOrUndefined val) eqn:E; eauto.
  destruct (getProp_defined h val pc E) as [x ->]. cbn. apply IH.
Qed.

Lemma get_loop_stops h pcs val :
  nullOrUndefined val = true -> get_loop h val pcs = Ok val.
Proof. destruct pcs; cbn; [done|]. by intros ->. Qed.

Lemma get_loop_app h pre post : forall val x,
  get_loop h val pre = Ok x ->
  get_loop h val (pre ++ post) = get_loop h x post.
Proof.
  induction pre as [|pc rest IH]; intros val x; cbn.
  - by intros [= ->].
  - destruct (nullOrUndefined val) eqn:E.
    + intros [= <-]. by rewrite get_loop_stops.
    + destruct (getProp h val pc) as [y| |]; cbn; try discriminate.
      apply IH.
Qed.

Lemma split_dot_nonempty s : split_dot s <> [].
Proof.
  destruct s as [|c r]; cbn; [done|].
  destruct (Ascii.eqb c "."); [done|]. by destruct (split_dot r).
Qed.

Lemma split_dot_single s x : split_dot s = [x] -> s = x.
Proof.
  revert x. induction s as [|c r IH]; intros x; cbn.
  - by intros [= <-].
  - destruct (Ascii.eqb c ".").
    + intros [= _ H]. by apply split_dot_nonempty in H.
    + destruct (split_dot r) as [|y ys] eqn:E; [by intros [= <-]; destruct (split_dot_nonempty r)|].
      intros [= <- ->]. by rewrite (IH y).
Qed.

Lemma get_total st p : exists x, get st p = Ok x.
Proof.
  unfold get. destruct (split_dot p) as [|firstPc [|pc rest]]; eauto.
  apply get_loop_total.
Qed.

(** C9 as stated fails on what is returned: with [a] set to [null],
    [get("a.b.c")] stops at [a] and returns that [null], not [undefined]. *)
Lemma get_returns_null_not_undefined :
  get (MState [] {[ "a" := VNull ]} []) "a.b.c" = Ok VNull /\
  get (MState [] {[ "a" := VNull ]} []) "a.b.c" <> Ok VUndef.
Proof. split; [vm_compute; reflexivity | vm_compute; discriminate]. Qed.

(** C9, amended: [get] returns a value for every state and every path, it
    computes the value from the state without producing a new one, and once
    the walk along the pieces [firstPc, pre...] has reached [null] or
    [undefined], any longer path [firstPc, pre..., post...] returns that same
    value ([null] stays [null], [undefined] stays [undefined]). *)
Theorem get_never_throws_and_stops_early :
  (forall st p, exists x, get st p = Ok x) /\
  (forall st p q firstPc pre post x,
      split_dot p = firstPc :: pre ->
      split_dot q = firstPc :: pre ++ post ->
      get st p = Ok x ->
      nullOrUndefined x = true ->
      get st q = Ok x).
Proof.
  split; [apply get_total|].
  intros st p q firstPc pre post x Hp Hq. unfold get. rewrite Hp, Hq.
  destruct pre as [|pc pre].
  - apply split_dot_single in Hp as ->. intros [= <-] Hn.
    destruct post as [|pc post]; cbn [app].
    + apply split_dot_single in Hq as ->. done.
    + by apply get_loop_stops.
  - intros Hx Hn.
    change ((pc :: pre) ++ post) with (pc :: pre ++ post).
    change (pc :: pre ++ post) with ((pc :: pre) ++ post).
    rewrite (get_loop_app _ _ _ _ _ Hx). by apply get_loop_stops.
Qed.

Lemma get_never_throws_and_stops_early_witness :
  get (MState [] {[ "a" := VNull ]} []) "a.b.c.d" = Ok VNull.
Proof.
  apply (proj2 get_never_throws_and_stops_early
           (MState [] {[ "a" := VNull ]} []) "a.b" "a.b.c.d" "a" ["b"] ["c"; "d"]
           VNull); reflexivity.
Defined.

(** ** The decoder only writes to objects it allocated itself *)

Lemma heap_le_refl h : heap_le h h.
Proof. by intros l o. Qed.

Lemma heap_le_trans h1 h2 h3 : heap_le h1 h2 -> heap_le h2 h3 -> heap_le h1 h3.
Proof. intros H1 H2 l o Hl. by apply H2, H1. Qed.

Lemma heap_le_length h h' : heap_le h h' -> (List.length h <= List.length h')%nat.
Proof.
  intros H. destruct (decide (List.length h = 0)%nat) as [->|Hn]; [lia|].
  destruct (lookup_lt_is_Some_2 h (List.length h - 1)) as [o Ho]; [lia|].
  apply H, lookup_lt_Some in Ho. lia.
Qed.

Lemma heap_le_alloc (h : heap) o : heap_le h (h ++ [o]).
Proof. intros l o' Hl. by apply lookup_app_l_Some. Qed.

Lemma heap_le_but_refl r h : heap_le_but r h h.
Proof. by intros l o. Qed.

Lemma heap_le_but_trans r h1 h2 h3 :
  heap_le_but r h1 h2 -> heap_le_but r h2 h3 -> heap_le_but r h1 h3.
Proof. intros H1 H2 l o Hn Hl. by apply H2, H1. Qed.

Lemma heap_le_weaken r h h' : heap_le h h' -> heap_le_but r h h'.
Proof. intros H l o _. apply H. Qed.

Lemma heap_le_but_insert r h o : heap_le_but r h (<[r := o]> h).
Proof. intros l o' Hn Hl. by rewrite list_lookup_insert_ne. Qed.

Lemma heap_le_fresh (h : heap) o h' :
  heap_le_but (List.length h) (h ++ [o]) h' -> heap_le h h'.
Proof.
  intros H l o' Hl. apply H.
  - apply lookup_lt_Some in Hl. lia.
  - by apply lookup_app_l_Some.
Qed.

Lemma lookup_alloc (h : heap) o : (h ++ [o]) !! List.length h = Some o.
Proof. by rewrite list_lookup_middle. Qed.

Lemma setProp_obj h r fs k v :
  h !! r = Some (OObj fs) ->
  setProp h (VRef r) k v = Ok (<[r := OObj (assoc_set k v fs)]> h).
Proof. cbn. by intros ->. Qed.

#[local] Arguments setProp : simpl never.
#[local] Arguments getProp : simpl never.

Lemma is_obj_le h h' r : heap_le h h' -> is_obj h r -> is_obj h' r.
Proof. intros H [fs Hfs]. exists fs. by apply H. Qed.

Lemma is_arr_le h h' r : heap_le h h' -> is_arr h r -> is_arr h' r.
Proof. intros H (xs & ps & Hr). exists xs, ps. by apply H. Qed.

Lemma bind_Ok {A B} (m : res A) (k : A -> res B) b :
  bind m k = Ok b -> exists a, m = Ok a /\ k a = Ok b.
Proof. destruct m; cbn; try discriminate. eauto. Qed.

Ltac inv_bind H :=
  let a := fresh "a" in
  let Ha := fresh "Ha" in
  apply bind_Ok in H as (a & Ha & H).

Section decode_frame.
Variable dec : heap -> registry -> value -> res (heap * registry * value).
Hypothesis dec_frame : forall h f v h' f' r,
    dec h f v = Ok (h', f', r) -> heap_le h h'.

Lemma decodeFields_frame r fs : forall h f h' f',
  is_obj h r ->
  decodeFields dec r fs h f = Ok (h', f') ->
  heap_le_but r h h' /\ is_obj h' r.
Proof.
  induction fs as [|[key value] rest IH]; intros h f h' f' Hr; cbn.
  - intros [= <- <-]. split; [apply heap_le_but_refl | done].
  - destruct (String.eqb key "@id"); [by apply IH|].
    intros H. inv_bind H. destruct a as [[h1 f1] v]. cbn beta iota in H.
    pose proof (dec_frame _ _ _ _ _ _ Ha) as Hle.
    destruct (is_obj_le _ _ _ Hle Hr) as [fs1 Hfs1].
    rewrite (setProp_obj _ _ _ _ _ Hfs1) in H. cbn [bind] in H.
    apply IH in H as [H1 H2].
    + split; [|done].
      eapply heap_le_but_trans; [by apply heap_le_weaken|].
      eapply heap_le_but_trans; [apply heap_le_but_insert|done].
    + eexists. apply list_lookup_insert_eq. by eapply lookup_lt_Some.
Qed.

Lemma decodeElems_frame r xs : forall h f h' f',
  is_arr h r ->
  decodeElems dec r xs h f = Ok (h', f') ->
  heap_le_but r h h' /\ is_arr h' r.
Proof.
  induction xs as [|value rest IH]; intros h f h' f' Hr; cbn.
  - intros [= <- <-]. split; [apply heap_le_but_refl | done].
  - intros H. inv_bind H. destruct a as [[h1 f1] v].
    pose proof (dec_frame _ _ _ _ _ _ Ha) as Hle.
    destruct (is_arr_le _ _ _ Hle Hr) as (rs & ps & Hrs).
    rewrite Hrs in H.
    apply IH in H as [H1 H2].
    + split; [|done].
      eapply heap_le_but_trans; [by apply heap_le_weaken|].
      eapply heap_le_but_trans; [apply heap_le_but_insert|done].
    + eexists _, _. apply list_lookup_insert_eq. by eapply lookup_lt_Some.
Qed.

Lemma decodeObject_frame fuel l fs h f h' f' v :
  decodeObject dec fuel l fs h f = Ok (h', f', v) -> heap_le h h'.
Proof.
  unfold decodeObject. destruct (has_marker fs).
  { intros [= <- <- <-]. apply heap_le_refl. }
  destruct (negb _).
  { intros H. inv_bind H. injection H as <- <- <-. apply heap_le_refl. }
  cbn. intros H. inv_bind H. inv_bind H. destruct a0 as [h2 f2].
  inv_bind H. injection H as <- <- <-.
  apply decodeFields_frame in Ha0 as [Hle [fs2 Hfs2]];
    [|eexists; apply lookup_alloc].
  rewrite (setProp_obj _ _ _ _ _ Hfs2) in Ha1. injection Ha1 as <-.
  eapply heap_le_fresh, heap_le_but_trans; [done|apply heap_le_but_insert].
Qed.

Lemma decodeArray_frame xs h f h' f' v :
  decodeArray dec xs h f = Ok (h', f', v) -> heap_le h h'.
Proof.
  unfold decodeArray. cbn. intros H. inv_bind H. destruct a as [h2 f2].
  injection H as <- <- <-.
  apply decodeElems_frame in Ha as [Hle _];
    [|eexists _, _; apply lookup_alloc].
  by eapply heap_le_fresh.
Qed.
End decode_frame.

Lemma doDecode_S n h f v :
  doDecode (S n) h f v =
  match v with
  | VUndef | VNull => Ok (h, f, v)
  | VRef l =>
      match h !! l with
      | Some (OArr xs _) => decodeArray (doDecode n) xs h f
      | Some (OObj fs) => decodeObject (doDecode n) n l fs h f
      | None => Throw
      end
  | _ => Ok (h, f, v)
  end.
Proof. reflexivity. Qed.

Lemma doDecode_frame n : forall h f v h' f' r,
  doDecode n h f v = Ok (h', f', r) -> heap_le h h'.
Proof.
  induction n as [|n IH]; intros h f v h' f' r; cbn; [discriminate|].
  destruct v; try (intros [= <- <- <-]; apply heap_le_refl).
  destruct (h !! l) as [[fs|xs ps]|].
  - by apply decodeObject_frame.
  - by apply decodeArray_frame.
  - discriminate.
Qed.

(** ** Decoding a tree never fails *)

Lemma is_tree_S n : forall h v, is_tree n h v = true -> is_tree (S n) h v = true.
Proof.
  induction n as [|n IH]; intros h v; destruct v; try done.
  cbn [is_tree]. destruct (h !! l) as [[fs|xs ps]|]; try done.
  - rewrite !forallb_forall. intros H p Hp. apply IH. by apply H.
  - rewrite !forallb_forall. intros H p Hp. apply IH. by apply H.
Qed.

Lemma toString_tree n : forall h0 h v,
  is_tree n h0 v = true -> heap_le h0 h -> nullOrUndefined v = false ->
  exists s, toString n h v = Ok s.
Proof.
  induction n as [|n IH]; intros h0 h v; destruct v; cbn; try done; eauto.
  destruct (h0 !! l) as [o|] eqn:E; [|done].
  intros Ht Hle _. rewrite (Hle _ _ E). destruct o as [fs|xs ps]; eauto.
  assert (exists ss, mapM (fun x => if nullOrUndefined x then Ok ""
                                    else toString n h x) xs = Ok ss) as [ss ->].
  { clear E. induction xs as [|x xs IHxs]; cbn; eauto.
    cbn in Ht. apply andb_true_iff in Ht as [Hx Hxs].
    destruct (IHxs Hxs) as [ss ->].
    destruct (nullOrUndefined x) eqn:Ex; cbn; eauto.
    destruct (IH _ _ _ Hx Hle Ex) as [s ->]. cbn. eauto. }
  cbn. eauto.
Qed.

Lemma heap_le_insert_fresh (h0 h : heap) r o :
  heap_le h0 h -> (List.length h0 <= r)%nat -> heap_le h0 (<[r := o]> h).
Proof.
  intros Hle Hr l o' Hl. rewrite list_lookup_insert_ne; [by apply Hle|].
  apply lookup_lt_Some in Hl. lia.
Qed.

Section decode_total.
Variable dec : heap -> registry -> value -> res (heap * registry * value).
Variable n : nat.
Variable h0 : heap.
Hypothesis dec_frame : forall h f v h' f' r,
    dec h f v = Ok (h', f', r) -> heap_le h h'.
Hypothesis dec_total : forall v h f,
    is_tree n h0 v = true -> heap_le h0 h -> exists out, dec h f v = Ok out.

Lemma decodeFields_total r fs : forall h f,
  forallb (fun p => is_tree n h0 p.2) fs = true ->
  heap_le h0 h -> (List.length h0 <= r)%nat -> is_obj h r ->
  exists out, decodeFields dec r fs h f = Ok out.
Proof.
  induction fs as [|[key value] rest IH]; intros h f Ht Hle Hr Hobj; cbn; eauto.
  cbn in Ht. apply andb_true_iff in Ht as [Hv Hrest].
  destruct (String.eqb key "@id"); [by apply IH|].
  destruct (dec_total value h f Hv Hle) as [[[h1 f1] v] Hd]. rewrite Hd. cbn.
  pose proof (dec_frame _ _ _ _ _ _ Hd) as Hle1.
  destruct (is_obj_le _ _ _ Hle1 Hobj) as [fs1 Hfs1].
  rewrite (setProp_obj _ _ _ _ _ Hfs1). cbn. apply IH; try done.
  - apply heap_le_insert_fresh; [by eapply heap_le_trans|done].
  - eexists. apply list_lookup_insert_eq. by eapply lookup_lt_Some.
Qed.

Lemma decodeElems_total r xs : forall h f,
  forallb (is_tree n h0) xs = true ->
  heap_le h0 h -> (List.length h0 <= r)%nat -> is_arr h r ->
  exists out, decodeElems dec r xs h f = Ok out.
Proof.
  induction xs as [|value rest IH]; intros h f Ht Hle Hr Harr; cbn; eauto.
  cbn in Ht. apply andb_true_iff in Ht as [Hv Hrest].
  destruct (dec_total value h f Hv Hle) as [[[h1 f1] v] Hd]. rewrite Hd. cbn.
  pose proof (dec_frame _ _ _ _ _ _ Hd) as Hle1.
  destruct (is_arr_le _ _ _ Hle1 Harr) as (rs & ps & Hrs).
  rewrite Hrs. apply IH; try done.
  - apply heap_le_insert_fresh; [by eapply heap_le_trans|done].
  - eexists _, _. apply list_lookup_insert_eq. by eapply lookup_lt_Some.
Qed.
End decode_total.

Lemma doDecode_tree n : forall h0 v h f,
  is_tree n h0 v = true -> heap_le h0 h ->
  exists out, doDecode (S n) h f v = Ok out.
Proof.
  induction n as [|n IH]; intros h0 v h f Ht Hle;
    (destruct v; [cbn; eauto ..|]).
  { by cbn in Ht. }
  cbn [is_tree] in Ht. destruct (h0 !! l) as [o|] eqn:E; [|done].
  cbn [doDecode]. rewrite (Hle _ _ E).
  pose proof (heap_le_length _ _ Hle) as Hlen.
  destruct o as [fs|xs ps].
  - unfold decodeObject. destruct (has_marker fs); eauto.
    assert (forall k, is_tree (S n) h0 (or_undef (assoc k fs)) = true) as Hfield.
    { intros k. clear E. induction fs as [|[k' x] fs IHfs]; [done|].
      cbn in Ht |- *. apply andb_true_iff in Ht as [Hx Hfs].
      destruct (String.eqb k k'); [by apply is_tree_S | by apply IHfs]. }
    destruct (nullOrUndefined (or_undef (assoc "@ref" fs))) eqn:Eref; cbn [negb].
    + cbn [alloc].
      assert (exists ids,
        (if nullOrUndefined (or_undef (assoc "@id" fs)) then Ok None
         else do s <- toString (S n) (h ++ [OObj []]) (or_undef (assoc "@id" fs));
              Ok (Some s)) = Ok ids) as [ids ->].
      { destruct (nullOrUndefined (or_undef (assoc "@id" fs))) eqn:Eid; eauto.
        destruct (toString_tree (S n) h0 (h ++ [OObj []]) _ (Hfield "@id")
                    (heap_le_trans _ _ _ Hle (heap_le_alloc _ _)) Eid) as [s ->].
        cbn. eauto. }
      cbn [bind].
      edestruct (decodeFields_total (doDecode (S n)) n h0) as [[h2 f2] Hd];
        [apply doDecode_frame | by intros; eapply IH | exact Ht | | | | ].
      * eapply heap_le_trans; [done|apply heap_le_alloc].
      * exact Hlen.
      * eexists. apply lookup_alloc.
      * rewrite Hd. cbn [bind].
        apply decodeFields_frame in Hd as [_ [fs2 Hfs2]];
          [|apply doDecode_frame|eexists; apply lookup_alloc].
        rewrite (setProp_obj _ _ _ _ _ Hfs2). cbn. eauto.
    + destruct (toString_tree _ _ h _ (Hfield "@ref") Hle Eref) as [s ->].
      cbn. eauto.
  - unfold decodeArray. cbn [alloc].
    edestruct (decodeElems_total (doDecode (S n)) n h0) as [[h2 f2] Hd];
      [apply doDecode_frame | by intros; eapply IH | exact Ht | | | | ].
    + eapply heap_le_trans; [done|apply heap_le_alloc].
    + exact Hlen.
    + eexists _, _. apply lookup_alloc.
    + rewrite Hd. cbn. eauto.
Qed.



(** ** What the decoder builds from a marker-free tree *)

Lemma vals_assoc_set (Q : value -> Prop) k v fs :
  Forall Q (map snd fs) -> Q v -> Forall Q (map snd (assoc_set k v fs)).
Proof.
  intros Hfs Hv. induction fs as [|[k' v'] fs IH]; cbn.
  - by constructor.
  - apply Forall_cons in Hfs as [Hv' Hfs].
    destruct (String.eqb k k'); cbn; constructor; auto.
Qed.

Lemma assoc_set_same k v fs : assoc k (assoc_set k v fs) = Some v.
Proof.
  induction fs as [|[k' v'] fs IH]; cbn.
  - by rewrite String.eqb_refl.
  - destruct (String.eqb k k') eqn:E; cbn; [by rewrite String.eqb_refl|].
    by rewrite E.
Qed.

Lemma region_ok_insert N (P : loc -> Prop) (h : heap) r o :
  region_ok N P h ->
  Forall (fresh_val N) (vals o) ->
  (forall fs, o = OObj fs -> has_marker fs = true \/ P r) ->
  region_ok N P (<[r := o]> h).
Proof.
  intros Hok Hv Hm l o' Hl Hlook.
  apply list_lookup_insert_Some in Hlook as [(-> & -> & _)|[Hne Hlook]].
  - by split.
  - by apply Hok.
Qed.

Lemma region_ok_alloc N (P : loc -> Prop) (h : heap) o :
  region_ok N P h ->
  Forall (fresh_val N) (vals o) ->
  (forall fs, o = OObj fs -> has_marker fs = true \/ P (List.length h)) ->
  region_ok N P (h ++ [o]).
Proof.
  intros Hok Hv Hm l o' Hl Hlook.
  apply lookup_app_Some in Hlook as [Hlook|[Hge Hlook]].
  - by apply Hok.
  - apply list_lookup_singleton_Some in Hlook as [Hz ->].
    assert (l = List.length h) as -> by lia. by split.
Qed.

Lemma region_ok_weaken N (P Q : loc -> Prop) h :
  (forall l, P l -> Q l) -> region_ok N P h -> region_ok N Q h.
Proof.
  intros HPQ Hok l o Hl Hlook. destruct (Hok l o Hl Hlook) as [Hv Hm].
  split; [done|]. intros fs ->. destruct (Hm fs eq_refl); auto.
Qed.

Section decode_raw.
Variable dec : heap -> registry -> value -> res (heap * registry * value).
Variable n : nat.
Variable h0 : heap.
Hypothesis dec_frame : forall h f v h' f' r,
    dec h f v = Ok (h', f', r) -> heap_le h h'.
Hypothesis dec_raw : forall v h f P h' f' r,
    raw_tree n h0 v = true -> heap_le h0 h ->
    region_ok (List.length h0) P h -> reg_fresh (List.length h0) f ->
    dec h f v = Ok (h', f', r) ->
    region_ok (List.length h0) P h' /\ reg_fresh (List.length h0) f' /\
    fresh_val (List.length h0) r.

Lemma decodeFields_raw P r fs : forall h f h' f',
  forallb (fun p => raw_tree n h0 p.2) fs = true ->
  heap_le h0 h -> (List.length h0 <= r)%nat -> is_obj h r -> P r ->
  region_ok (List.length h0) P h -> reg_fresh (List.length h0) f ->
  decodeFields dec r fs h f = Ok (h', f') ->
  region_ok (List.length h0) P h' /\ reg_fresh (List.length h0) f'.
Proof.
  induction fs as [|[key value] rest IH];
    intros h f h' f' Ht Hle Hr Hobj HP Hok Hreg; cbn.
  - by intros [= <- <-].
  - cbn in Ht. apply andb_true_iff in Ht as [Hv Hrest].
    destruct (String.eqb key "@id"); [by apply IH|].
    intros H. inv_bind H. destruct a as [[h1 f1] v]. cbn beta iota in H.
    pose proof (dec_frame _ _ _ _ _ _ Ha) as Hle1.
    destruct (dec_raw _ _ _ _ _ _ _ Hv Hle Hok Hreg Ha) as (Hok1 & Hreg1 & Hfv).
    destruct (is_obj_le _ _ _ Hle1 Hobj) as [fs1 Hfs1].
    rewrite (setProp_obj _ _ _ _ _ Hfs1) in H. cbn [bind] in H.
    apply IH in H; try done.
    + apply heap_le_insert_fresh; [by eapply heap_le_trans|done].
    + eexists. apply list_lookup_insert_eq. by eapply lookup_lt_Some.
    + apply region_ok_insert; [done| |by right].
      cbn. apply vals_assoc_set; [|done].
      by destruct (Hok1 r _ Hr Hfs1) as [Hvals _].
Qed.

Lemma decodeElems_raw P r xs : forall h f h' f',
  forallb (raw_tree n h0) xs = true ->
  heap_le h0 h -> (List.length h0 <= r)%nat -> is_arr h r ->
  region_ok (List.length h0) P h -> reg_fresh (List.length h0) f ->
  decodeElems dec r xs h f = Ok (h', f') ->
  region_ok (List.length h0) P h' /\ reg_fresh (List.length h0) f'.
Proof.
  induction xs as [|value rest IH];
    intros h f h' f' Ht Hle Hr Harr Hok Hreg; cbn.
  - by intros [= <- <-].
  - cbn in Ht. apply andb_true_iff in Ht as [Hv Hrest].
    intros H. inv_bind H. destruct a as [[h1 f1] v]. cbn beta iota in H.
    pose proof (dec_frame _ _ _ _ _ _ Ha) as Hle1.
    destruct (dec_raw _ _ _ _ _ _ _ Hv Hle Hok Hreg Ha) as (Hok1 & Hreg1 & Hfv).
    destruct (is_arr_le _ _ _ Hle1 Harr) as (rs & ps & Hrs).
    rewrite Hrs in H.
    apply IH in H; try done.
    + apply heap_le_insert_fresh; [by eapply heap_le_trans|done].
    + eexists _, _. apply list_lookup_insert_eq. by eapply lookup_lt_Some.
    + apply region_ok_insert; [done| |done].
      destruct (Hok1 r _ Hr Hrs) as [Hvals _]. cbn in Hvals |- *.
      apply Forall_app in Hvals as [Hrs' Hps].
      rewrite !Forall_app. repeat split; try done. by repeat constructor.
Qed.
End decode_raw.

Lemma has_marker_set fs :
  has_marker (assoc_set JSOG_OBJECT_DECODED (VBool true) fs) = true.
Proof. unfold has_marker. rewrite assoc_set_same. by apply bool_decide_eq_true. Qed.

Lemma region_ok_finish N (P : loc -> Prop) (h : heap) r fs :
  region_ok N (fun l => P l \/ l = r) h ->
  h !! r = Some (OObj fs) -> (N <= r)%nat ->
  region_ok N P (<[r := OObj (assoc_set JSOG_OBJECT_DECODED (VBool true) fs)]> h).
Proof.
  intros Hok Hr HN l o Hl Hlook.
  apply list_lookup_insert_Some in Hlook as [(-> & <- & _)|[Hne Hlook]].
  - split.
    + cbn. apply vals_assoc_set; [|done]. by destruct (Hok _ _ HN Hr).
    + intros fs' [= <-]. left. apply has_marker_set.
  - destruct (Hok _ _ Hl Hlook) as [Hv Hm]. split; [done|].
    intros fs' ->. destruct (Hm fs' eq_refl) as [?|[?|?]]; auto; congruence.
Qed.

Lemma reg_fresh_found_get N f s : reg_fresh N f -> fresh_val N (found_get f s).
Proof.
  intros Hreg. unfold found_get. destruct (f !! s) as [l|] eqn:E; [|done].
  cbn. by eapply Hreg.
Qed.

Lemma reg_fresh_insert N (f : registry) s r :
  reg_fresh N f -> (N <= r)%nat -> reg_fresh N (<[s := r]> f).
Proof.
  intros Hreg Hr s' l. rewrite lookup_insert_Some.
  intros [[_ <-]|[_ H]]; [done|by eapply Hreg].
Qed.

Lemma doDecode_raw n : forall h0 v h f P h' f' r,
  raw_tree n h0 v = true -> heap_le h0 h ->
  region_ok (List.length h0) P h -> reg_fresh (List.length h0) f ->
  doDecode (S n) h f v = Ok (h', f', r) ->
  region_ok (List.length h0) P h' /\ reg_fresh (List.length h0) f' /\
  fresh_val (List.length h0) r.
Proof.
  induction n as [|n IH]; intros h0 v h f P h' f' r Ht Hle Hok Hreg;
    (destruct v; [by intros [= <- <- <-] ..|]).
  { by cbn in Ht. }
  cbn [raw_tree] in Ht. destruct (h0 !! l) as [o|] eqn:E; [|done].
  rewrite doDecode_S, (Hle _ _ E).
  pose proof (heap_le_length _ _ Hle) as Hlen.
  destruct o as [fs|xs ps].
  - apply andb_true_iff in Ht as [Hm Ht]. apply bool_decide_eq_true in Hm.
    unfold decodeObject, has_marker. rewrite Hm.
    rewrite bool_decide_eq_false_2 by done.
    destruct (negb _).
    { intros H. inv_bind H. injection H as <- <- <-.
      split; [done|split; [done|]]. by apply reg_fresh_found_get. }
    cbn [alloc]. intros H. inv_bind H. inv_bind H. destruct a0 as [h2 f2].
    cbn beta iota in H. inv_bind H. injection H as <- <- <-.
    pose proof Ha0 as Hfr.
    apply decodeFields_frame in Hfr as [_ [fs2 Hfs2]];
      [|apply doDecode_frame|eexists; apply lookup_alloc].
    rewrite (setProp_obj _ _ _ _ _ Hfs2) in Ha1. injection Ha1 as <-.
    eapply (decodeFields_raw (doDecode (S n)) n h0 (doDecode_frame _)
              (fun v h f P h' f' r => IH h0 v h f P h' f' r)
              (fun l => P l \/ l = List.length h)) in Ha0 as [Hok2 Hreg2];
      try done.
    + split; [by apply region_ok_finish|]. split; [done|exact Hlen].
    + eapply heap_le_trans; [done|apply heap_le_alloc].
    + eexists; apply lookup_alloc.
    + by right.
    + apply region_ok_alloc; [|by apply Forall_nil|by intros; right; right].
      apply (region_ok_weaken _ P); [by intros; left|done].
    + destruct a as [s|]; [|done].
      destruct (String.eqb s ""); [done|]. by apply reg_fresh_insert.
  - unfold decodeArray. cbn [alloc]. intros H. inv_bind H.
    destruct a as [h2 f2]. injection H as <- <- <-.
    eapply (decodeElems_raw (doDecode (S n)) n h0 (doDecode_frame _)
              (fun v h f P h' f' r => IH h0 v h f P h' f' r) P) in Ha
      as [Hok2 Hreg2]; try done.
    + eapply heap_le_trans; [done|apply heap_le_alloc].
    + eexists _, _; apply lookup_alloc.
    + apply region_ok_alloc; [done|by apply Forall_nil|done].
Qed.

Lemma reach_fresh N (P : loc -> Prop) h v l :
  region_ok N P h -> fresh_val N v -> reach h v l -> (N <= l)%nat.
Proof.
  intros Hok Hv Hr. induction Hr as [l|v l o l' _ IH Hl Hin]; [exact Hv|].
  destruct (Hok _ _ (IH Hv) Hl) as [Hvals _].
  exact (proj1 (List.Forall_forall _ _) Hvals (VRef l') Hin).
Qed.

Lemma allM_true {A} (f : A -> res bool) l :
  allM f l = Ok true <-> Forall (fun a => f a = Ok true) l.
Proof.
  induction l as [|a l IH]; cbn.
  - split; [by constructor|done].
  - rewrite Forall_cons, <- IH.
    destruct (f a) as [[]| |]; cbn; split; try done; try tauto; by intros [? _].
Qed.

Lemma Forall_rev_iff {A} (Q : A -> Prop) l : Forall Q (rev l) <-> Forall Q l.
Proof.
  rewrite !List.Forall_forall. split; intros H x Hx; apply H.
  - by apply in_rev in Hx.
  - by apply in_rev.
Qed.

Lemma assoc_Some_In k v fs : assoc k fs = Some v -> In (k, v) fs.
Proof.
  induction fs as [|[k' v'] fs IH]; cbn; [done|].
  destruct (String.eqb_spec k k') as [->|_]; [intros [= ->]; by left|].
  intros H. right. by apply IH.
Qed.

Lemma isEqual_unfold n h a b :
  isEqual n h a b =
  match a, b with
  | VRef la, VRef lb =>
      if decide (la = lb) then Ok true
      else
        match h !! la, h !! lb with
        | Some (OArr xs _), Some (OArr ys _) =>
            if negb (List.length xs =? List.length ys)%nat then Ok false
            else match n with
                 | O => OutOfFuel
                 | S n' => allM (fun p => isEqual n' h p.1 p.2)
                                (rev (zip xs ys))
                 end
        | Some (OObj fa), Some (OObj fb) =>
            if negb (List.length fa =? List.length fb)%nat then Ok false
            else match n with
                 | O => OutOfFuel
                 | S n' =>
                     allM (fun p => match assoc p.1 fb with
                                    | Some y => isEqual n' h p.2 y
                                    | None => Ok false
                                    end)
                          (rev fa)
                 end
        | _, _ => Ok false
        end
  | _, _ => Ok (bool_decide (a = b))
  end.
Proof. destruct n; reflexivity. Qed.

Lemma isEqual_marked_unmarked n h la lb fa fb :
  h !! la = Some (OObj fa) -> h !! lb = Some (OObj fb) ->
  has_marker fa = true -> assoc JSOG_OBJECT_DECODED fb = None ->
  isEqual n h (VRef la) (VRef lb) <> Ok true.
Proof.
  intros Ha Hb Hm Hn. rewrite isEqual_unfold, Ha, Hb.
  destruct (decide (la = lb)) as [->|_]; [|].
  { rewrite Ha in Hb. injection Hb as ->. apply bool_decide_eq_true in Hm.
    congruence. }
  destruct (negb _); [done|]. destruct n as [|n]; [done|].
  rewrite allM_true, Forall_rev_iff, List.Forall_forall.
  intros H. apply bool_decide_eq_true, assoc_Some_In, H in Hm. cbn in Hm.
  by rewrite Hn in Hm.
Qed.



(** ** What [decode] returns is settled *)

Lemma settled_stable n : forall (P : loc -> Prop) h h' v,
  stable P h h' -> settled n P h v -> settled n P h' v.
Proof.
  induction n as [|n IH]; intros P h h' v Hst; destruct v; try done; cbn;
    destruct (Hst l) as [Hobj Harr];
    (destruct (h !! l) as [[fs|xs ps]|]; [| |done]).
  - destruct (Hobj fs eq_refl) as (fs' & -> & Hm). intros [?|?]; auto.
  - by intros [_ []].
  - destruct (Hobj fs eq_refl) as (fs' & -> & Hm). intros [?|?]; auto.
  - intros [HP Hxs]. rewrite (Harr xs ps eq_refl HP). split; [done|].
    eapply Forall_impl; [done|]. intros x. by apply IH.
Qed.

Lemma settled_shrink n : forall (P : loc -> Prop) r h v,
  (forall fs, h !! r = Some (OObj fs) -> has_marker fs = true) ->
  settled n (fun l => P l \/ l = r) h v -> settled n P h v.
Proof.
  induction n as [|n IH]; intros P r h v Hr; destruct v; try done;
    cbn [settled]; destruct (h !! l) as [[fs|xs ps]|] eqn:E; try done.
  - intros [?|[?| ->]]; auto.
  - by intros [_ []].
  - intros [?|[?| ->]]; auto.
  - intros [HP Hxs]. split; [tauto|]. eapply Forall_impl; [done|].
    intros x. by apply IH.
Qed.

Lemma stable_le (P : loc -> Prop) h h' : heap_le h h' -> stable P h h'.
Proof.
  intros Hle l. split.
  - intros fs Hl. exists fs. split; [by apply Hle|auto].
  - intros xs ps Hl _. by apply Hle.
Qed.

Lemma stable_insert_obj (P : loc -> Prop) (h : heap) r fs fs' :
  h !! r = Some (OObj fs) -> P r -> stable P h (<[r := OObj fs']> h).
Proof.
  intros Hr HP l. destruct (decide (l = r)) as [->|Hne].
  - split.
    + intros fs0 _. exists fs'. split; [|auto].
      apply list_lookup_insert_eq. by eapply lookup_lt_Some.
    + intros xs ps Hl. congruence.
  - rewrite list_lookup_insert_ne by done. split; eauto.
Qed.

Lemma stable_insert_arr (P : loc -> Prop) (h : heap) r o :
  P r -> is_arr h r -> stable P h (<[r := o]> h).
Proof.
  intros HP (xs & ps & Hr) l. destruct (decide (l = r)) as [->|Hne].
  - split; [intros fs Hl; congruence | by intros ? ? _ []].
  - rewrite list_lookup_insert_ne by done. split; eauto.
Qed.

Lemma reg_settled_stable (P : loc -> Prop) h h' f :
  stable P h h' -> reg_settled P h f -> reg_settled P h' f.
Proof.
  intros Hst Hreg s l Hs. destruct (Hreg s l Hs) as (fs & Hl & Hm).
  destruct (Hst l) as [Hobj _]. destruct (Hobj fs Hl) as (fs' & Hl' & Hm').
  exists fs'. split; [done|]. destruct Hm; auto.
Qed.

Lemma reg_settled_weaken (P Q : loc -> Prop) h f :
  (forall l, P l -> Q l) -> reg_settled P h f -> reg_settled Q h f.
Proof.
  intros HPQ Hreg s l Hs. destruct (Hreg s l Hs) as (fs & Hl & Hm).
  exists fs. split; [done|]. destruct Hm; auto.
Qed.

Lemma reg_settled_shrink (P : loc -> Prop) r h f :
  (forall fs, h !! r = Some (OObj fs) -> has_marker fs = true) ->
  reg_settled (fun l => P l \/ l = r) h f -> reg_settled P h f.
Proof.
  intros Hr Hreg s l Hs. destruct (Hreg s l Hs) as (fs & Hl & Hm).
  exists fs. split; [done|]. destruct Hm as [?|[?| ->]]; auto.
Qed.

Section decode_settled.
Variable dec : heap -> registry -> value -> res (heap * registry * value).
Variable n : nat.
Hypothesis dec_frame : forall h f v h' f' r,
    dec h f v = Ok (h', f', r) -> heap_le h h'.
Hypothesis dec_settled : forall h f v (P : loc -> Prop) h' f' r,
    reg_settled P h f -> (forall l, P l -> (l < List.length h)%nat) ->
    dec h f v = Ok (h', f', r) ->
    settled n P h' r /\ reg_settled P h' f'.

Lemma decodeFields_settled (P : loc -> Prop) r fs : forall h f h' f',
  is_obj h r -> P r -> (forall l, P l -> (l < List.length h)%nat) ->
  reg_settled P h f ->
  decodeFields dec r fs h f = Ok (h', f') ->
  reg_settled P h' f'.
Proof.
  induction fs as [|[key value] rest IH]; intros h f h' f' Hobj HP Hb Hreg; cbn.
  - by intros [= <- <-].
  - destruct (String.eqb key "@id"); [by apply IH|].
    intros H. inv_bind H. destruct a as [[h1 f1] v]. cbn beta iota in H.
    pose proof (dec_frame _ _ _ _ _ _ Ha) as Hle1.
    destruct (dec_settled _ _ _ _ _ _ _ Hreg Hb Ha) as [_ Hreg1].
    destruct (is_obj_le _ _ _ Hle1 Hobj) as [fs1 Hfs1].
    rewrite (setProp_obj _ _ _ _ _ Hfs1) in H. cbn [bind] in H.
    apply IH in H; try done.
    + eexists. apply list_lookup_insert_eq. by eapply lookup_lt_Some.
    + intros l Hl. rewrite length_insert.
      apply Hb in Hl. apply heap_le_length in Hle1. lia.
    + eapply reg_settled_stable; [by eapply stable_insert_obj|done].
Qed.

Lemma decodeElems_settled (P : loc -> Prop) r xs : forall h f h' f' rs ps,
  h !! r = Some (OArr rs ps) -> P r ->
  (forall l, P l -> (l < List.length h)%nat) ->
  Forall (settled n P h) rs -> reg_settled P h f ->
  decodeElems dec r xs h f = Ok (h', f') ->
  exists rs', h' !! r = Some (OArr rs' ps) /\
              Forall (settled n P h') rs' /\ reg_settled P h' f'.
Proof.
  induction xs as [|value rest IH];
    intros h f h' f' rs ps Hr HP Hb Hrs Hreg; cbn.
  - intros [= <- <-]. eauto.
  - intros H. inv_bind H. destruct a as [[h1 f1] v]. cbn beta iota in H.
    pose proof (dec_frame _ _ _ _ _ _ Ha) as Hle1.
    destruct (dec_settled _ _ _ _ _ _ _ Hreg Hb Ha) as [Hv Hreg1].
    rewrite (Hle1 _ _ Hr) in H.
    assert (stable P h1 (<[r := OArr (rs ++ [v]) ps]> h1)) as Hst.
    { apply stable_insert_arr; [done|]. eexists _, _. by apply Hle1. }
    eapply IH in H; [done| |done| | |].
    + apply list_lookup_insert_eq. eapply lookup_lt_Some. by apply Hle1.
    + intros l Hl. rewrite length_insert.
      apply Hb in Hl. apply heap_le_length in Hle1. lia.
    + apply Forall_app. split.
      * eapply Forall_impl; [done|]. intros x Hx.
        eapply settled_stable; [done|].
        eapply settled_stable; [by apply stable_le|done].
      * constructor; [|done]. by eapply settled_stable.
    + by eapply reg_settled_stable.
Qed.
End decode_settled.

Lemma doDecode_settled n : forall h f v (P : loc -> Prop) h' f' r,
  reg_settled P h f -> (forall l, P l -> (l < List.length h)%nat) ->
  doDecode n h f v = Ok (h', f', r) ->
  settled n P h' r /\ reg_settled P h' f'.
Proof.
  induction n as [|n IH]; intros h f v P h' f' r Hreg Hb; [done|].
  rewrite doDecode_S.
  destruct v; try (intros [= <- <- <-]; by split).
  destruct (h !! l) as [[fs|xs ps]|] eqn:E; [| |done].
  - unfold decodeObject. destruct (has_marker fs) eqn:Em.
    { intros [= <- <- <-]. split; [|done]. cbn. rewrite E. by left. }
    destruct (negb _).
    { intros H. inv_bind H. injection H as <- <- <-. split; [|done].
      unfold found_get. destruct (f !! a) as [l'|] eqn:Ef; [|done].
      destruct (Hreg _ _ Ef) as (fs' & Hl' & Hm'). cbn. by rewrite Hl'. }
    cbn [alloc]. intros H. inv_bind H. inv_bind H. destruct a0 as [h2 f2].
    cbn beta iota in H. inv_bind H. injection H as <- <- <-.
    pose proof Ha0 as Hfr.
    apply decodeFields_frame in Hfr as [_ [fs2 Hfs2]];
      [|apply doDecode_frame|eexists; apply lookup_alloc].
    rewrite (setProp_obj _ _ _ _ _ Hfs2) in Ha1. injection Ha1 as <-.
    eapply (decodeFields_settled (doDecode n) n (doDecode_frame _) (IH)
              (fun l => P l \/ l = List.length h)) in Ha0.
    + assert (List.length h < List.length h2)%nat as Hlt
        by by eapply lookup_lt_Some.
      split.
      * cbn. rewrite list_lookup_insert_eq by done. left. apply has_marker_set.
      * apply (reg_settled_shrink _ (List.length h)).
        { intros fs3. rewrite list_lookup_insert_eq by done.
          intros [= <-]. apply has_marker_set. }
        eapply reg_settled_stable; [|done].
        eapply stable_insert_obj; [done|by right].
    + eexists; apply lookup_alloc.
    + by right.
    + intros l0 [Hl0| ->]; rewrite length_app; cbn; [apply Hb in Hl0|]; lia.
    + assert (reg_settled (fun l => P l \/ l = List.length h) (h ++ [OObj []]) f)
        as Hreg1.
      { eapply reg_settled_stable; [apply stable_le, heap_le_alloc|].
        eapply reg_settled_weaken; [|done]. by left. }
      destruct a as [s|]; [|done]. destruct (String.eqb s ""); [done|].
      intros s' l'. rewrite lookup_insert_Some. intros [[_ <-]|[_ Hs']].
      * exists []. split; [apply lookup_alloc|by right; right].
      * by eapply Hreg1.
  - unfold decodeArray. cbn [alloc]. intros H. inv_bind H.
    destruct a as [h2 f2]. injection H as <- <- <-.
    eapply (decodeElems_settled (doDecode n) n (doDecode_frame _) (IH)
              (fun l => P l \/ l = List.length h)) in Ha
      as (rs' & Hr' & Hrs' & Hreg').
    + assert (forall fs, h2 !! List.length h = Some (OObj fs) ->
                         has_marker fs = true) as Hnot by (intros; congruence).
      split; [|by eapply reg_settled_shrink].
      cbn. rewrite Hr'. split.
      * intros HP. apply Hb in HP. lia.
      * eapply Forall_impl; [done|]. intros x. by apply settled_shrink.
    + apply lookup_alloc.
    + by right.
    + intros l0 [Hl0| ->]; rewrite length_app; cbn; [apply Hb in Hl0|]; lia.
    + done.
    + eapply reg_settled_stable; [apply stable_le, heap_le_alloc|].
      eapply reg_settled_weaken; [|done]. by left.
Qed.

(** ** Decoding what [decode] returned *)

Lemma settled_ext n : forall (P Q : loc -> Prop) h v,
  (forall l, P l <-> Q l) -> settled n P h v -> settled n Q h v.
Proof.
  induction n as [|n IH]; intros P Q h v HPQ; destruct v; try done;
    cbn [settled]; destruct (h !! l) as [[fs|xs ps]|]; try done;
    rewrite (HPQ l); try done.
  intros [HP Hxs]. split; [done|]. eapply Forall_impl; [done|].
  intros x. by apply IH.
Qed.

Lemma settled_fresh n : forall h v,
  settled n (fun _ => False) h v ->
  settled n (fun l => l = List.length h) h v.
Proof.
  induction n as [|n IH]; intros h v; destruct v; try done; cbn [settled];
    destruct (h !! l) as [[fs|xs ps]|] eqn:E; try done.
  - intros [?|[]]; auto.
  - by intros [_ []].
  - intros [?|[]]; auto.
  - intros [_ Hxs]. split.
    + intros ->. apply lookup_lt_Some in E. lia.
    + eapply Forall_impl; [done|]. apply IH.
Qed.

Lemma same_but_arrays_bound n : forall N N' h x y,
  (N' <= N)%nat -> same_but_arrays n N h x y -> same_but_arrays n N' h x y.
Proof.
  destruct n; intros N N' h x y HN; destruct x; try done; cbn;
    (destruct (h !! l) as [[fs|xs ps]|]; try done);
    intros (l' & ys & -> & Hl' & Hne & Hys & H); exists l', ys;
    repeat split; try done; lia.
Qed.

Lemma same_but_arrays_stable n : forall N h h' r x y,
  (r < N)%nat -> is_arr h r -> heap_le_but r h h' ->
  settled n (fun l => l = r) h x ->
  same_but_arrays n N h x y -> same_but_arrays n N h' x y.
Proof.
  induction n as [|n IH]; intros N h h' r x y HN (rs & ps & Hr) Hle;
    destruct x; try done; cbn [settled same_but_arrays];
    destruct (h !! l) as [[fs|xs ps']|] eqn:E; try done.
  - intros _ ->. rewrite (Hle l (OObj fs)); [done| |done]. congruence.
  - by intros [_ []].
  - intros _ ->. rewrite (Hle l (OObj fs)); [done| |done]. congruence.
  - intros [Hne Hxs] (l' & ys & -> & Hl' & Hne' & Hys & H).
    rewrite (Hle l (OArr xs ps')); [|done|done].
    exists l', ys. repeat split; try done.
    + apply Hle; [lia|done].
    + clear E Hys. revert ys H. induction Hxs as [|x xs Hx Hxs IHxs];
        intros ys H; inversion H; subst; constructor; auto.
      eapply IH; [| |done|done|done]; [lia|by eexists _, _].
Qed.

Section decode_again.
Variable dec : heap -> registry -> value -> res (heap * registry * value).
Variable n : nat.
Hypothesis dec_frame : forall h f v h' f' r,
    dec h f v = Ok (h', f', r) -> heap_le h h'.
Hypothesis dec_again : forall h f g,
    settled n (fun _ => False) h g ->
    exists h' g',
      dec h f g = Ok (h', f, g') /\
      same_but_arrays n (List.length h) h' g g' /\
      (forall l, (List.length h <= l < List.length h')%nat -> is_arr h' l) /\
      (~ (exists l, g = VRef l /\ is_arr h l) -> g' = g /\ h' = h).

Lemma decodeElems_again r xs : forall h f rs ps,
  h !! r = Some (OArr rs ps) ->
  Forall (settled n (fun l => l = r) h) xs ->
  exists h' ys,
    decodeElems dec r xs h f = Ok (h', f) /\
    h' !! r = Some (OArr (rs ++ ys) ps) /\
    heap_le_but r h h' /\
    Forall2 (same_but_arrays n (S r) h') xs ys /\
    (forall l, (List.length h <= l < List.length h')%nat -> is_arr h' l).
Proof.
  induction xs as [|x rest IH]; intros h f rs ps Hr Hxs; cbn.
  - exists h, []. rewrite app_nil_r.
    repeat split; try done; try apply heap_le_but_refl; intros; lia.
  - apply Forall_cons in Hxs as [Hx Hrest].
    assert (forall fs, h !! r = Some (OObj fs) -> has_marker fs = true)
      as Hnot by (intros; congruence).
    assert (settled n (fun _ => False) h x) as Hx0.
    { apply (settled_shrink n (fun _ => False) r h); [done|].
      eapply settled_ext; [|exact Hx]. intros l; tauto. }
    destruct (dec_again h f x Hx0) as (h1 & y & Hd & Hxy & Hnew & _).
    pose proof (dec_frame _ _ _ _ _ _ Hd) as Hle1.
    pose proof (lookup_lt_Some _ _ _ Hr) as Hrlt.
    rewrite Hd. cbn [bind]. rewrite (Hle1 _ _ Hr).
    set (h2 := <[r := OArr (rs ++ [y]) ps]> h1).
    assert (is_arr h1 r) as Harr1 by (eexists _, _; by apply Hle1).
    assert (stable (fun l => l = r) h1 h2) as Hst12
      by by apply stable_insert_arr.
    destruct (IH h2 f (rs ++ [y]) ps) as (h' & ys & Hd' & Hr' & Hle' & Hys & Hnew').
    { apply list_lookup_insert_eq. eapply lookup_lt_Some. by apply Hle1. }
    { eapply Forall_impl; [exact Hrest|]. intros z Hz.
      eapply settled_stable; [exact Hst12|].
      eapply settled_stable; [by apply stable_le|done]. }
    exists h', (y :: ys). rewrite Hd'.
    assert (heap_le_but r h1 h') as Hle1'.
    { eapply heap_le_but_trans; [apply heap_le_but_insert|exact Hle']. }
    repeat split; try done.
    + by rewrite <- app_assoc in Hr'.
    + eapply heap_le_but_trans; [by apply heap_le_weaken|done].
    + constructor; [|done].
      eapply same_but_arrays_stable; [| |exact Hle1'| |].
      * constructor.
      * done.
      * eapply settled_stable; [by apply stable_le|done].
      * eapply same_but_arrays_bound; [|done]. lia.
    + intros l [Hl1 Hl2].
      destruct (decide (l < List.length h1)%nat) as [Hlt|Hge].
      * destruct (Hnew l) as (zs & qs & Hz); [lia|].
        exists zs, qs. apply Hle1'; [lia|done].
      * apply Hnew'. unfold h2. rewrite length_insert. lia.
Qed.
End decode_again.

Lemma doDecode_again n : forall h f g,
  settled n (fun _ => False) h g ->
  exists h' g',
    doDecode (S n) h f g = Ok (h', f, g') /\
    same_but_arrays n (List.length h) h' g g' /\
    (forall l, (List.length h <= l < List.length h')%nat -> is_arr h' l) /\
    (~ (exists l, g = VRef l /\ is_arr h l) -> g' = g /\ h' = h).
Proof.
  induction n as [|n IH]; intros h f g Hs; rewrite doDecode_S;
    (destruct g;
     [exists h; eexists; repeat split; [done..|intros; lia] ..|]);
    cbn [settled same_but_arrays] in Hs |- *;
    destruct (h !! l) as [[fs|xs ps]|] eqn:E; try done.
  - destruct Hs as [Hm|[]]. unfold decodeObject. rewrite Hm.
    exists h, (VRef l). rewrite E. repeat split; try done. intros; lia.
  - by destruct Hs as [_ []].
  - destruct Hs as [Hm|[]]. unfold decodeObject. rewrite Hm.
    exists h, (VRef l). rewrite E. repeat split; try done. intros; lia.
  - destruct Hs as [_ Hxs]. unfold decodeArray. cbn [alloc].
    destruct (decodeElems_again (doDecode (S n)) n (doDecode_frame _) (IH)
                (List.length h) xs (h ++ [OArr [] []]) f [] [])
      as (h' & ys & Hd & Hr & Hle & Hys & Hnew).
    { apply lookup_alloc. }
    { eapply Forall_impl; [exact Hxs|]. intros x Hx.
      eapply settled_stable; [apply stable_le, heap_le_alloc|].
      by apply settled_fresh. }
    rewrite Hd. cbn [bind]. exists h', (VRef (List.length h)).
    pose proof (lookup_lt_Some _ _ _ E) as Hl.
    assert (h' !! l = Some (OArr xs ps)) as El'.
    { apply Hle; [lia|]. by apply lookup_app_l_Some. }
    rewrite El'. split; [done|]. split; [|split].
    + exists (List.length h), ys. repeat split; try done. lia.
    + intros l0 [Hl1 Hl2].
      destruct (decide (l0 = List.length h)) as [->|Hne]; [by eexists _, _|].
      apply Hnew. rewrite length_app. cbn. lia.
    + intros []. exists l. split; [done|]. by eexists _, _.
Qed.

(** C3 as stated fails for arrays: decoding [[ { a: 1 } ]] gives an array
    [g]; decoding [g] allocates another array, so the result is not [g]
    (its element is the same object). *)
Lemma decode_twice_new_array :
  exists h g h' g' o,
    decode 3 [OArr [VRef 1] []; OObj [("a", VNum 1)]] (VRef 0) = Ok (h, g) /\
    decode 3 h g = Ok (h', g') /\
    g' <> g /\ h' <> h /\
    getProp h' g "0" = Ok (VRef o) /\ getProp h' g' "0" = Ok (VRef o).
Proof.
  eexists _, _, _, _, _.
  split; [vm_compute; reflexivity|].
  split; [vm_compute; reflexivity|].
  repeat split; try (vm_compute; reflexivity); discriminate.
Qed.

(** C3, amended: if [g] is what a call of [decode] returned, decoding [g]
    returns a result; every object already in the heap is left as it is and
    only arrays are allocated; the result is [g] itself, with the heap
    untouched, unless [g] is an array, and then it is a new array whose
    elements are those of [g] (new arrays again for the arrays among them,
    the identical objects and scalars otherwise).  In particular an object
    that carries the marker is returned as it is, whatever it holds. *)
Theorem decode_twice :
  (forall n h0 v0 h g,
      decode n h0 v0 = Ok (h, g) ->
      exists h' g',
        decode (S n) h g = Ok (h', g') /\
        heap_le h h' /\
        same_but_arrays n (List.length h) h' g g' /\
        (forall l, (List.length h <= l < List.length h')%nat -> is_arr h' l) /\
        (~ (exists l, g = VRef l /\ is_arr h l) -> g' = g /\ h' = h)) /\
  (forall n h l fs,
      h !! l = Some (OObj fs) -> has_marker fs = true ->
      decode (S n) h (VRef l) = Ok (h, VRef l)).
Proof.
  split.
  - intros n h0 v0 h g Hd. unfold decode in Hd. inv_bind Hd.
    destruct a as [[h1 f1] r]. injection Hd as <- <-.
    destruct (doDecode_settled n h0 ∅ v0 (fun _ => False) h1 f1 r) as [Hs _];
      [intros s l; by rewrite lookup_empty | by intros ? [] | exact Ha |].
    destruct (doDecode_again n h1 ∅ r Hs) as (h' & g' & Hd' & Hsame & Hnew & Hid).
    exists h', g'. unfold decode. rewrite Hd'. cbn [bind].
    split; [done|]. split; [by eapply doDecode_frame|].
    exact (conj Hsame (conj Hnew Hid)).
  - intros n h l fs Hl Hm. unfold decode. rewrite doDecode_S, Hl.
    unfold decodeObject. by rewrite Hm.
Qed.

Lemma decode_twice_witness :
  exists h' g',
    decode 4 (id_then_ref ++
              [OObj [("one", VRef 4); ("two", VRef 4); (JSOG_OBJECT_DECODED, VBool true)];
               OObj [("name", VStr "hello"); (JSOG_OBJECT_DECODED, VBool true)]])
           (VRef 3) = Ok (h', g') /\
    heap_le (id_then_ref ++
              [OObj [("one", VRef 4); ("two", VRef 4); (JSOG_OBJECT_DECODED, VBool true)];
               OObj [("name", VStr "hello"); (JSOG_OBJECT_DECODED, VBool true)]]) h' /\
    same_but_arrays 3 5 h' (VRef 3) g' /\
    (forall l, (5 <= l < List.length h')%nat -> is_arr h' l) /\
    (~ (exists l, VRef 3 = VRef l /\
                  is_arr (id_then_ref ++
              [OObj [("one", VRef 4); ("two", VRef 4); (JSOG_OBJECT_DECODED, VBool true)];
               OObj [("name", VStr "hello"); (JSOG_OBJECT_DECODED, VBool true)]]) l) ->
     g' = VRef 3 /\
     h' = id_then_ref ++
              [OObj [("one", VRef 4); ("two", VRef 4); (JSOG_OBJECT_DECODED, VBool true)];
               OObj [("name", VStr "hello"); (JSOG_OBJECT_DECODED, VBool true)]]).
Proof.
  apply (proj1 decode_twice 3 id_then_ref (VRef 0)). reflexivity.
Defined.

(** ** Reading from a well-formed state *)

Lemma heap_ok_lookup h l o : heap_ok h = true -> h !! l = Some o -> obj_ok h o = true.
Proof.
  unfold heap_ok. rewrite forallb_forall. intros H Hl. apply H.
  apply list_elem_of_In. by eapply list_elem_of_lookup_2.
Qed.

Lemma wf_state_heap st : wf_state st = true -> heap_ok (st_heap st) = true.
Proof. unfold wf_state. by intros [? _]%andb_true_iff. Qed.

Lemma wf_state_oldGet st k :
  wf_state st = true -> val_ok (st_heap st) (oldGet st k) = true.
Proof.
  unfold wf_state, oldGet. intros [_ H]%andb_true_iff.
  destruct (attributes st !! k) as [v|] eqn:E; [|done].
  rewrite forallb_forall in H. apply (H (k, v)).
  by apply list_elem_of_In, elem_of_map_to_list.
Qed.

Lemma assoc_In_snd k v fs : assoc k fs = Some v -> In v (map snd fs).
Proof. intros H%assoc_Some_In. by apply (in_map snd) in H. Qed.

Lemma obj_ok_vals h o v : obj_ok h o = true -> In v (vals o) -> val_ok h v = true.
Proof.
  destruct o as [fs|xs ps]; cbn; intros [_ H]%andb_true_iff Hin;
    rewrite forallb_forall in H; by apply H.
Qed.

Lemma getProp_ok h v k x :
  heap_ok h = true -> getProp h v k = Ok x -> val_ok h x = true.
Proof.
  intros Hh. unfold getProp. destruct v; try discriminate.
  - by intros [= <-].
  - by intros [= <-].
  - destruct (String.eqb k "length"); [by intros [= <-]|].
    destruct (array_index k); [|by intros [= <-]].
    destruct (String.get n s); by intros [= <-].
  - destruct (h !! l) as [o|] eqn:E; [|by intros [= <-]].
    pose proof (heap_ok_lookup _ _ _ Hh E) as Ho. destruct o as [fs|xs ps].
    + intros [= <-]. destruct (assoc k fs) as [y|] eqn:Ek; [|done].
      apply (obj_ok_vals _ _ _ Ho). by eapply assoc_In_snd.
    + destruct (String.eqb k "length"); [by intros [= <-]|].
      destruct (array_index k) as [i|].
      * intros [= <-]. destruct (xs !! i) as [y|] eqn:Ei; [|done].
        apply (obj_ok_vals _ _ _ Ho). cbn. apply in_or_app. left.
        apply list_elem_of_In. by eapply list_elem_of_lookup_2.
      * intros [= <-]. destruct (assoc k ps) as [y|] eqn:Ek; [|done].
        apply (obj_ok_vals _ _ _ Ho). cbn. apply in_or_app. right.
        by eapply assoc_In_snd.
Qed.

Lemma getProp_le h h' v k :
  heap_le h h' -> val_ok h v = true -> getProp h' v k = getProp h v k.
Proof.
  intros Hle Hv. destruct v; try done. cbn in Hv.
  apply bool_decide_eq_true in Hv.
  destruct (lookup_lt_is_Some_2 h l Hv) as [o Ho].
  unfold getProp. by rewrite Ho, (Hle _ _ Ho).
Qed.

Lemma get_loop_le h h' pcs : forall v,
  heap_ok h = true -> heap_le h h' -> val_ok h v = true ->
  get_loop h' v pcs = get_loop h v pcs.
Proof.
  induction pcs as [|pc rest IH]; intros v Hh Hle Hv; cbn; [done|].
  destruct (nullOrUndefined v); [done|].
  rewrite (getProp_le _ _ _ _ Hle Hv).
  destruct (getProp h v pc) as [x| |] eqn:E; cbn; try done.
  apply IH; try done. by eapply getProp_ok.
Qed.

Lemma get_loop_ok h pcs : forall v x,
  heap_ok h = true -> val_ok h v = true ->
  get_loop h v pcs = Ok x -> val_ok h x = true.
Proof.
  induction pcs as [|pc rest IH]; intros v x Hh Hv; cbn; [by intros [= <-]|].
  destruct (nullOrUndefined v); [by intros [= <-]|].
  destruct (getProp h v pc) as [y| |] eqn:E; cbn; try done.
  apply IH; try done. by eapply getProp_ok.
Qed.

Lemma get_le st h' p :
  wf_state st = true -> heap_le (st_heap st) h' ->
  get (with_heap st h') p = get st p.
Proof.
  intros Hwf Hle. unfold get, with_heap, oldGet. cbn.
  destruct (split_dot p) as [|a [|b rest]]; try done.
  apply get_loop_le; try done; [by apply wf_state_heap|].
  by apply wf_state_oldGet.
Qed.

Lemma get_ok st p x :
  wf_state st = true -> get st p = Ok x -> val_ok (st_heap st) x = true.
Proof.
  intros Hwf. unfold get.
  destruct (split_dot p) as [|a [|b rest]];
    try (intros [= <-]; by apply wf_state_oldGet).
  apply get_loop_ok; [by apply wf_state_heap|by apply wf_state_oldGet].
Qed.

(** ** [_.isEqual] on a well-formed heap *)

Lemma allM_ext {A} (f g : A -> res bool) l :
  (forall a, In a l -> f a = g a) -> allM f l = allM g l.
Proof.
  induction l as [|a l IH]; intros H; cbn; [done|].
  rewrite (H a) by by left. destruct (g a) as [[]| |]; cbn; try done.
  apply IH. intros b Hb. apply H. by right.
Qed.

Lemma isEqual_refl n h a : isEqual n h a a = Ok true.
Proof.
  rewrite isEqual_unfold. destruct a; try by rewrite bool_decide_eq_true_2.
  by destruct (decide (l = l)).
Qed.

Lemma in_zip_l {A B} (xs : list A) (ys : list B) p :
  In p (zip xs ys) -> In p.1 xs /\ In p.2 ys.
Proof.
  revert ys. induction xs as [|x xs IH]; intros [|y ys]; cbn; try done.
  intros [<-|H]; [by split; left|]. destruct (IH _ H). by split; right.
Qed.

Lemma isEqual_le n : forall h h' a b,
  heap_ok h = true -> heap_le h h' ->
  val_ok h a = true -> val_ok h b = true ->
  isEqual n h' a b = isEqual n h a b.
Proof.
  induction n as [|n IH]; intros h h' a b Hh Hle Ha Hb;
    rewrite !(isEqual_unfold _ _ a b); destruct a, b; try done;
    cbn in Ha, Hb; apply bool_decide_eq_true in Ha, Hb;
    destruct (lookup_lt_is_Some_2 h l Ha) as [oa Hoa];
    destruct (lookup_lt_is_Some_2 h l0 Hb) as [ob Hob];
    rewrite Hoa, Hob, (Hle _ _ Hoa), (Hle _ _ Hob); try done.
  destruct (decide (l = l0)); [done|].
  pose proof (heap_ok_lookup _ _ _ Hh Hoa) as Hoka.
  pose proof (heap_ok_lookup _ _ _ Hh Hob) as Hokb.
  destruct oa as [fa|xs psa], ob as [fb|ys psb]; try done.
  - destruct (negb _); [done|]. apply allM_ext. intros [k x] Hin. cbn.
    destruct (assoc k fb) as [y|] eqn:Ek; [|done].
    apply IH; try done.
    + apply (obj_ok_vals _ _ _ Hoka). cbn. apply in_rev in Hin.
      by apply (in_map snd) in Hin.
    + apply (obj_ok_vals _ _ _ Hokb). by eapply assoc_In_snd.
  - destruct (negb _); [done|]. apply allM_ext. intros [x y] Hin. cbn.
    apply in_rev, in_zip_l in Hin as [Hx Hy]. cbn in Hx, Hy.
    apply IH; try done.
    + apply (obj_ok_vals _ _ _ Hoka). cbn. apply in_or_app. by left.
    + apply (obj_ok_vals _ _ _ Hokb). cbn. apply in_or_app. by left.
Qed.

Lemma assoc_None_notin k fs : assoc k fs = None -> ~ In k (map fst fs).
Proof.
  induction fs as [|[k' v'] fs IH]; cbn; [tauto|].
  destruct (String.eqb_spec k k') as [->|Hne]; [done|].
  intros H [?|?]; [congruence|by apply IH].
Qed.

Lemma assoc_NoDup k v fs :
  NoDup (map fst fs) -> In (k, v) fs -> assoc k fs = Some v.
Proof.
  induction fs as [|[k' v'] fs IH]; cbn; [done|].
  intros [Hnin Hnd]%NoDup_cons [[= -> ->]|Hin].
  - by rewrite String.eqb_refl.
  - destruct (String.eqb_spec k k') as [->|_]; [|by apply IH].
    destruct Hnin. apply list_elem_of_In. by apply (in_map fst) in Hin.
Qed.

Lemma assoc_is_Some k fs : In k (map fst fs) -> exists v, assoc k fs = Some v.
Proof.
  destruct (assoc k fs) as [v|] eqn:E; [eauto|].
  by intros ?%(assoc_None_notin _ _ E).
Qed.

Lemma keys_covered (fa fb : list (string * value)) :
  NoDup (map fst fa) -> List.length fa = List.length fb ->
  (forall k, In k (map fst fa) -> In k (map fst fb)) ->
  forall k, In k (map fst fb) -> In k (map fst fa).
Proof.
  intros Hnd Hlen Hsub k Hk.
  assert (map fst fa ⊆+ map fst fb) as Hsm.
  { apply NoDup_submseteq; [done|]. intros x. rewrite !list_elem_of_In. apply Hsub. }
  apply submseteq_length_Permutation in Hsm; [|rewrite !length_map; lia].
  apply list_elem_of_In. rewrite Hsm. by apply list_elem_of_In.
Qed.

Lemma Forall_zip_swap {A} (R R' : A -> A -> Prop) xs : forall ys,
  (forall a b, R a b -> R' b a) ->
  Forall (fun p => R p.1 p.2) (zip xs ys) ->
  Forall (fun p => R' p.1 p.2) (zip ys xs).
Proof.
  induction xs as [|x xs IH]; intros [|y ys] HR; cbn; try by constructor.
  intros [Hxy H]%Forall_cons. constructor; [by apply HR|by apply IH].
Qed.

Lemma length_eqb_sym (a b : nat) : (a =? b)%nat = (b =? a)%nat.
Proof. apply Nat.eqb_sym. Qed.

Lemma isEqual_sym n : forall h a b,
  heap_ok h = true -> isEqual n h a b = Ok true -> isEqual n h b a = Ok true.
Proof.
  induction n as [|n IH]; intros h a b Hh;
    rewrite (isEqual_unfold _ _ a b), (isEqual_unfold _ _ b a);
    destruct a, b; try done;
    try (intros [= H]; apply bool_decide_eq_true in H; rewrite <- H;
         by rewrite bool_decide_eq_true_2);
    (destruct (decide (l = l0)) as [->|Hne];
     [by destruct (decide (l0 = l0))|]);
    (destruct (decide (l0 = l)) as [->|_]; [done|]);
    destruct (h !! l) as [[fa|xs psa]|] eqn:Ea;
    destruct (h !! l0) as [[fb|ys psb]|] eqn:Eb; try done.
  - rewrite (length_eqb_sym (List.length fb)). by destruct (negb _).
  - rewrite (length_eqb_sym (List.length ys)). by destruct (negb _).
  - rewrite (length_eqb_sym (List.length fb)).
    destruct (List.length fa =? List.length fb)%nat eqn:El; [|done]. cbn [negb].
    apply Nat.eqb_eq in El.
    rewrite !allM_true, !Forall_rev_iff, !List.Forall_forall. intros H [k y] Hin.
    cbn.
    pose proof (heap_ok_lookup _ _ _ Hh Ea) as [Hnda _]%andb_true_iff.
    pose proof (heap_ok_lookup _ _ _ Hh Eb) as [Hndb _]%andb_true_iff.
    apply bool_decide_eq_true in Hnda, Hndb.
    assert (In k (map fst fa)) as Hk.
    { apply (keys_covered fa fb Hnda El); [|by apply (in_map fst) in Hin].
      intros k' [[k'' x'] [<- Hx']]%in_map_iff. apply H in Hx'. cbn in Hx' |- *.
      destruct (assoc k'' fb) as [y'|] eqn:E'; [|done].
      apply assoc_Some_In in E'. by apply (in_map fst) in E'. }
    destruct (assoc_is_Some _ _ Hk) as [x Hx]. rewrite Hx.
    pose proof (H _ (assoc_Some_In _ _ _ Hx)) as Hxy. cbn in Hxy.
    rewrite (assoc_NoDup _ _ _ Hndb Hin) in Hxy. by apply IH.
  - rewrite (length_eqb_sym (List.length ys)).
    destruct (negb _); [done|].
    rewrite !allM_true, !Forall_rev_iff.
    apply (Forall_zip_swap (fun a b => isEqual n h a b = Ok true)
                           (fun a b => isEqual n h a b = Ok true)).
    intros a b. by apply IH.
Qed.

Lemma Forall_zip_diag {A} (R : A -> A -> Prop) xs :
  (forall a, R a a) -> Forall (fun p => R p.1 p.2) (zip xs xs).
Proof. intros HR. induction xs; cbn; constructor; auto. Qed.

(** Comparing with a value or with its fresh shallow copy gives the same
    positive answer. *)
Lemma isEqual_clone n h cur v' h1 tlv :
  heap_ok h = true -> val_ok h cur = true -> val_ok h v' = true ->
  (1 <= n)%nat ->
  isEqual n h cur v' = Ok true ->
  clone h cur = (h1, tlv) ->
  isEqual n h1 v' tlv = Ok true.
Proof.
  intros Hh Hcur Hv' Hn Heq Hcl.
  assert ((forall l, cur <> VRef l) -> isEqual n h1 v' tlv = Ok true) as Hscalar.
  { intros Hnr. assert (h1 = h /\ tlv = cur) as [-> ->].
    { destruct cur; cbn in Hcl; try by injection Hcl as <- <-. by destruct (Hnr l). }
    by apply isEqual_sym. }
  destruct cur as [| | | | |l]; try by apply Hscalar.
  clear Hscalar. cbn in Hcur. apply bool_decide_eq_true in Hcur.
  destruct (lookup_lt_is_Some_2 h l Hcur) as [o Ho].
  pose proof (heap_ok_lookup _ _ _ Hh Ho) as Hok.
  apply isEqual_sym in Heq; [|done].
  rewrite isEqual_unfold in Heq. destruct v' as [| | | | |lv]; try done.
  cbn in Hv'. apply bool_decide_eq_true in Hv'.
  destruct (lookup_lt_is_Some_2 h lv Hv') as [ov Hov].
  pose proof (heap_ok_lookup _ _ _ Hh Hov) as Hokv.
  rewrite Ho, Hov in Heq.
  cbn in Hcl. rewrite Ho in Hcl.
  destruct n as [|n]; [lia|].
  rewrite isEqual_unfold.
  destruct o as [fs|xs ps]; cbn in Hcl; injection Hcl as <- <-;
    rewrite (lookup_app_l_Some _ _ _ _ Hov), lookup_alloc;
    (destruct (decide (lv = List.length h)) as [->|_]; [lia|]).
  - destruct (decide (lv = l)) as [->|Hne].
    + rewrite Ho in Hov. injection Hov as <-. rewrite Nat.eqb_refl. cbn [negb].
      rewrite allM_true, Forall_rev_iff, List.Forall_forall. intros [k x] Hin.
      cbn. apply andb_true_iff in Hok as [Hnd%bool_decide_eq_true _].
      rewrite (assoc_NoDup _ _ _ Hnd Hin). apply isEqual_refl.
    + destruct ov as [fv|]; [|done].
      destruct (negb _); [done|]. rewrite <- Heq. apply allM_ext.
      intros [k x] Hin. cbn. destruct (assoc k fs) as [y|] eqn:Ek; [|done].
      apply isEqual_le; try done; [apply heap_le_alloc| |].
      * apply (obj_ok_vals _ _ _ Hokv). apply in_rev in Hin.
        by apply (in_map snd) in Hin.
      * apply (obj_ok_vals _ _ _ Hok). by eapply assoc_In_snd.
  - destruct (decide (lv = l)) as [->|Hne].
    + rewrite Ho in Hov. injection Hov as <-. rewrite Nat.eqb_refl. cbn [negb].
      rewrite allM_true, Forall_rev_iff.
      apply (Forall_zip_diag (fun a b => isEqual n _ a b = Ok true)).
      intros a. apply isEqual_refl.
    + destruct ov as [|ys psv]; [done|].
      destruct (negb _); [done|]. rewrite <- Heq. apply allM_ext.
      intros [x y] Hin. cbn.
      apply in_rev, in_zip_l in Hin as [Hx Hy]. cbn in Hx, Hy.
      apply isEqual_le; try done; [apply heap_le_alloc| |].
      * apply (obj_ok_vals _ _ _ Hokv). cbn. apply in_or_app. by left.
      * apply (obj_ok_vals _ _ _ Hok). cbn. apply in_or_app. by left.
Qed.

(** ** [set] *)

Lemma split_dot_piece p : forall l x,
  split_dot p = l -> In x l -> split_dot x = [x].
Proof.
  induction p as [|ch r IH]; intros l x; cbn.
  - intros <- [<-|[]]. done.
  - destruct (Ascii.eqb ch ".") eqn:Ech.
    + intros <- [<-|Hin]; [done|]. by eapply IH.
    + destruct (split_dot r) as [|y ys] eqn:Er.
      { by destruct (split_dot_nonempty r). }
      intros <- [<-|Hin].
      * cbn. rewrite Ech. by rewrite (IH (y :: ys) y eq_refl (or_introl eq_refl)).
      * apply (IH (y :: ys)); [done|by right].
Qed.

Lemma get_single st a : split_dot a = [a] -> get st a = Ok (oldGet st a).
Proof. intros H. unfold get. by rewrite H. Qed.

(** The object [set] is about to write through: a copy of the top-level
    object, or a new empty object when the top-level value is no object. *)
Lemma toSet_plain (h : heap) top h1 topLevelValue :
  plain h top = true ->
  clone h top = (h1, topLevelValue) ->
  exists fs,
    (if typeof_object topLevelValue then (h1, topLevelValue)
     else let '(h', e) := alloc h1 (OObj []) in (h', VRef e))
    = (h ++ [OObj fs], VRef (List.length h)) /\
    (forall l, top = VRef l -> h !! l = Some (OObj fs)) /\
    ((forall l, top <> VRef l) -> fs = []).
Proof.
  destruct top as [| | | | |l]; cbn; try done;
    try (intros _ [= <- <-]; exists []; by repeat split).
  destruct (h !! l) as [[fs|]|] eqn:E; try done. intros _ [= <- <-].
  exists fs. cbn.
  repeat split; [by intros ? [= <-]|]. intros H. by destruct (H l).
Qed.

Lemma getProp_obj h t fs k :
  h !! t = Some (OObj fs) -> getProp h (VRef t) k = Ok (or_undef (assoc k fs)).
Proof. unfold getProp. by intros ->. Qed.

Lemma append_change_inj p q : "change:" +:+ p = "change:" +:+ q -> p = q.
Proof. intros H. cbn in H. by injection H. Qed.

Lemma set_one_three n options st flag p a b c v old ab :
  split_dot p = [a; b; c] ->
  wf_state st = true -> val_ok (st_heap st) v = true ->
  get st p = Ok old -> isEqual n (st_heap st) old v = Ok false ->
  plain (st_heap st) (oldGet st a) = true ->
  get_loop (st_heap st) (oldGet st a) [b] = Ok ab ->
  plain (st_heap st) ab = true ->
  exists st',
    set_one n options (st, flag) p v = Ok (st', true) /\
    triggered st' =
      triggered st ++ [Event ("change:" +:+ p) [AModel; AVal v; AVal options]] /\
    attributes st' = <[a := VRef (List.length (st_heap st))]> (attributes st).
Proof.
  intros Hp Hwf Hv Hold Hneq Htop Hab Hpab.
  pose proof (wf_state_heap _ Hwf) as Hh.
  pose proof (get_ok _ _ _ Hwf Hold) as Hvold.
  unfold set_one. rewrite Hp.
  rewrite (get_single st a)
    by (apply (split_dot_piece p _ a Hp); by left).
  cbn [bind].
  destruct (clone (st_heap st) (oldGet st a)) as [h1 tlv] eqn:Ecl.
  destruct (toSet_plain _ _ _ _ Htop Ecl) as (fs & -> & Hobj & Hnonobj).
  set (h := st_heap st) in *. set (t := List.length h).
  assert (heap_le h (h ++ [OObj fs])) as Hle2 by apply heap_le_alloc.
  assert ((h ++ [OObj fs]) !! t = Some (OObj fs)) as Ht by apply lookup_alloc.
  cbn [set_walk]. rewrite (getProp_obj _ _ _ _ Ht). cbn [bind].
  remember (or_undef (assoc b fs)) as x eqn:Ex0.
  assert (typeof_object x = true -> x = ab) as Hxab.
  { destruct (oldGet st a) as [| | | | |l] eqn:Etop;
      try (rewrite Ex0, Hnonobj by done; done).
    pose proof (Hobj l eq_refl) as Hl. cbn in Hab.
    rewrite (getProp_obj _ _ _ _ Hl) in Hab. cbn in Hab. rewrite Ex0.
    by injection Hab. }
  destruct (typeof_object x) eqn:Ex.
  - rewrite <- (Hxab eq_refl) in Hpab.
    destruct x as [| | | | |q]; try done. cbn in Hpab.
    destruct (h !! q) as [[fq|]|] eqn:Eq; try done.
    cbn [bind]. rewrite (getProp_obj _ _ _ _ Ht), <- Ex0. cbn [bind or_undef].
    rewrite (get_le st _ p Hwf Hle2), Hold. cbn [bind].
    rewrite (isEqual_le n h _ old v Hh Hle2 Hvold Hv), Hneq. cbn [bind].
    rewrite (setProp_obj _ _ fq) by by apply lookup_app_l_Some.
    cbn. eexists. split; [reflexivity|]. by split.
  - cbn [alloc]. set (e := List.length (h ++ [OObj fs])).
    assert (((h ++ [OObj fs]) ++ [OObj []]) !! t = Some (OObj fs)) as Ht'
      by by apply lookup_app_l_Some.
    rewrite (setProp_obj _ _ _ _ _ Ht'). cbn [bind].
    set (h3 := <[t := OObj (assoc_set b (VRef e) fs)]>
                 ((h ++ [OObj fs]) ++ [OObj []])).
    assert (h3 !! t = Some (OObj (assoc_set b (VRef e) fs))) as Ht3.
    { apply list_lookup_insert_eq. by eapply lookup_lt_Some. }
    assert (h3 !! e = Some (OObj [])) as He3.
    { unfold h3. rewrite list_lookup_insert_ne.
      - apply lookup_alloc.
      - unfold e, t. rewrite length_app. cbn. lia. }
    assert (heap_le h h3) as Hle3.
    { apply heap_le_insert_fresh; [|unfold t; lia].
      eapply heap_le_trans; [exact Hle2|apply heap_le_alloc]. }
    rewrite (getProp_obj _ _ _ _ Ht3), assoc_set_same. cbn [bind or_undef].
    rewrite (get_le st _ p Hwf Hle3), Hold. cbn [bind].
    rewrite (isEqual_le n h _ old v Hh Hle3 Hvold Hv), Hneq. cbn [bind].
    rewrite (setProp_obj _ _ _ _ _ He3).
    cbn. eexists. split; [reflexivity|]. by split.
Qed.



(** ** The walk of [set] through the top-level copy *)

Lemma setProp_kinds h x k v h' :
  setProp h x k v = Ok h' ->
  (forall l, is_obj h l -> is_obj h' l) /\ (forall l, is_arr h l -> is_arr h' l) /\
  (forall l o, x <> VRef l -> h !! l = Some o -> h' !! l = Some o).
Proof.
  unfold setProp. destruct x as [| | | | |t]; try done.
  destruct (h !! t) as [o|] eqn:Et; [|intros [= <-]; by repeat split].
  assert (forall o', (match o with OObj _ => exists fs, o' = OObj fs
                               | OArr _ _ => exists xs ps, o' = OArr xs ps end) ->
          (forall l, is_obj h l -> is_obj (<[t := o']> h) l) /\
          (forall l, is_arr h l -> is_arr (<[t := o']> h) l) /\
          (forall l o0, VRef t <> VRef l -> h !! l = Some o0 ->
                        <[t := o']> h !! l = Some o0)) as Hins.
  { intros o' Ho'. pose proof (lookup_lt_Some _ _ _ Et) as Hlt.
    repeat split.
    - intros l [fs Hl]. destruct (decide (l = t)) as [->|Hne].
      + rewrite Et in Hl. injection Hl as ->. destruct Ho' as [fs' ->].
        exists fs'. by apply list_lookup_insert_eq.
      + exists fs. by rewrite list_lookup_insert_ne.
    - intros l (xs & ps & Hl). destruct (decide (l = t)) as [->|Hne].
      + rewrite Et in Hl. injection Hl as ->. destruct Ho' as (xs' & ps' & ->).
        exists xs', ps'. by apply list_lookup_insert_eq.
      + exists xs, ps. by rewrite list_lookup_insert_ne.
    - intros l o0 Hne Hl. rewrite list_lookup_insert_ne; [done|congruence]. }
  destruct o as [fs|xs ps].
  - intros [= <-]. apply Hins. eauto.
  - destruct (String.eqb k "length").
    + destruct v; try done. destruct (0 <=? z)%Z; [|done].
      intros [= <-]. apply Hins. eauto.
    + destruct (array_index k) as [i|].
      * destruct (i <? List.length xs)%nat; intros [= <-]; apply Hins; eauto.
      * intros [= <-]. apply Hins. eauto.
Qed.

Lemma set_walk_frame t rest : forall h ptr pc h' ptr' last,
  set_walk h (VRef t) ptr pc rest = Ok (h', ptr', last) ->
  heap_le_but t h h' /\
  (forall l, is_obj h l -> is_obj h' l) /\ (forall l, is_arr h l -> is_arr h' l).
Proof.
  induction rest as [|pc' rest IH]; intros h ptr pc h' ptr' last; cbn [set_walk].
  - intros [= <- <- <-]. split; [apply heap_le_but_refl|by split].
  - intros H. inv_bind H. inv_bind H. inv_bind H.
    apply IH in H as (Hle & Hobj & Harr).
    destruct (typeof_object a).
    + injection Ha0 as <-. by repeat split.
    + cbn [alloc] in Ha0. apply setProp_kinds in Ha0 as (Ho & Har & Hfr).
      split; [|split].
      * eapply heap_le_but_trans; [|exact Hle]. intros l o Hne Hl.
        apply Hfr; [congruence|]. by apply lookup_app_l_Some.
      * intros l Hl. apply Hobj, Ho. by eapply is_obj_le; [apply heap_le_alloc|].
      * intros l Hl. apply Harr, Har. by eapply is_arr_le; [apply heap_le_alloc|].
Qed.

Lemma set_walk_obj t rest : forall h ptr pc,
  is_obj h t -> exists out, set_walk h (VRef t) ptr pc rest = Ok out.
Proof.
  induction rest as [|pc' rest IH]; intros h ptr pc [fs Ht]; cbn [set_walk]; eauto.
  rewrite (getProp_obj _ _ _ _ Ht). cbn [bind].
  destruct (typeof_object _).
  - cbn [bind]. rewrite (getProp_obj _ _ _ _ Ht). cbn [bind]. apply IH. by exists fs.
  - cbn [alloc]. rewrite (setProp_obj _ _ fs) by by apply lookup_app_l_Some.
    cbn [bind].
    erewrite getProp_obj;
      [|apply list_lookup_insert_eq; rewrite length_app;
        apply lookup_lt_Some in Ht; lia].
    cbn [bind]. apply IH. eexists. apply list_lookup_insert_eq.
    rewrite length_app. apply lookup_lt_Some in Ht. lia.
Qed.

Lemma set_walk_null rest : forall h ptr pc out,
  set_walk h VNull ptr pc rest = Ok out -> rest = [].
Proof. by destruct rest. Qed.

Lemma getProp_arr h t xs ps k :
  h !! t = Some (OArr xs ps) -> exists x, getProp h (VRef t) k = Ok x.
Proof. intros _. by apply getProp_defined. Qed.

Lemma setProp_arr h t k e :
  is_arr h t -> k <> "length" -> exists h', setProp h (VRef t) k (VRef e) = Ok h'.
Proof.
  intros (xs & ps & Ht) Hk. unfold setProp. rewrite Ht.
  destruct (String.eqb_spec k "length"); [done|].
  destruct (array_index k); [destruct (_ <? _)%nat|]; eauto.
Qed.

Lemma set_walk_arr t rest : forall h ptr pc,
  is_arr h t -> Forall (fun k => k <> "length") (walked pc rest) ->
  exists out, set_walk h (VRef t) ptr pc rest = Ok out.
Proof.
  induction rest as [|pc' rest IH]; intros h ptr pc Harr Hw; cbn [set_walk]; eauto.
  cbn [walked] in Hw. apply Forall_cons in Hw as [Hpc Hw].
  destruct Harr as (xs & ps & Ht).
  destruct (getProp_arr _ _ _ _ pc Ht) as [x ->]. cbn [bind].
  assert (exists h1, (if typeof_object x then Ok h
                      else let '(h', e) := alloc h (OObj []) in
                           setProp h' (VRef t) pc (VRef e)) = Ok h1 /\
                     is_arr h1 t) as (h1 & -> & Harr1).
  { destruct (typeof_object x).
    { exists h. split; [done|]. by eexists _, _. }
    cbn [alloc].
    assert (is_arr (h ++ [OObj []]) t) as Harr'
      by (eexists _, _; by apply lookup_app_l_Some).
    destruct (setProp_arr _ _ pc (List.length h) Harr' Hpc) as [h1 Hs].
    exists h1. split; [done|]. by apply (setProp_kinds _ _ _ _ _ Hs). }
  cbn [bind]. destruct Harr1 as (xs1 & ps1 & Ht1).
  destruct (getProp_arr _ _ _ _ pc Ht1) as [y ->]. cbn [bind].
  apply IH; [by eexists _, _|done].
Qed.

Lemma set_walk_arr_inv t rest : forall h ptr pc out,
  is_arr h t -> set_walk h (VRef t) ptr pc rest = Ok out ->
  Forall (fun k => k <> "length") (walked pc rest).
Proof.
  induction rest as [|pc' rest IH]; intros h ptr pc out Harr; cbn [set_walk walked].
  - intros _. constructor.
  - intros H. inv_bind H. inv_bind H. inv_bind H.
    assert (pc <> "length" /\ is_arr a0 t) as [Hpc Harr1].
    { destruct Harr as (xs & ps & Ht). unfold getProp in Ha. rewrite Ht in Ha.
      destruct (String.eqb_spec pc "length") as [->|Hne].
      - injection Ha as <-. cbn [typeof_object alloc] in Ha0.
        unfold setProp in Ha0.
        rewrite (lookup_app_l_Some _ _ _ _ Ht) in Ha0. by cbn in Ha0.
      - split; [done|]. destruct (typeof_object a).
        + injection Ha0 as <-. by eexists _, _.
        + cbn [alloc] in Ha0. apply setProp_kinds in Ha0 as (_ & Har & _).
          apply Har. eexists _, _. by apply lookup_app_l_Some. }
    constructor; [done|]. by eapply IH.
Qed.

Lemma is_obj_not_arr h l : is_obj h l -> is_arr h l -> False.
Proof. intros [fs Hl] (xs & ps & Hl'). congruence. Qed.

(** A second walk succeeds where [walk_cond] holds, and touches nothing that
    was in the heap before. *)
Lemma set_walk_again (h : heap) top pc rest h1 tlv h2 toSet :
  val_ok h top = true -> walk_cond h top pc rest ->
  clone h top = (h1, tlv) ->
  (if typeof_object tlv then (h1, tlv)
   else let '(h', e) := alloc h1 (OObj []) in (h', VRef e)) = (h2, toSet) ->
  exists h3 ptr last,
    set_walk h2 toSet toSet pc rest = Ok (h3, ptr, last) /\ heap_le h h3.
Proof.
  intros Hv Hc Hcl Hprep.
  assert (forall t, toSet = VRef t -> (List.length h <= t)%nat ->
                    heap_le h h2 ->
                    (is_obj h2 t \/
                     (is_arr h2 t /\ Forall (fun k => k <> "length") (walked pc rest))) ->
          exists h3 ptr last,
            set_walk h2 toSet toSet pc rest = Ok (h3, ptr, last) /\ heap_le h h3)
    as Hgo.
  { intros t -> Ht Hle2 Hk.
    assert (exists out, set_walk h2 (VRef t) (VRef t) pc rest = Ok out)
      as [[[h3 ptr] last] Hw].
    { destruct Hk as [Ho|[Ha Hw]]; [by apply set_walk_obj|by apply set_walk_arr]. }
    exists h3, ptr, last. split; [done|].
    apply set_walk_frame in Hw as [Hle _].
    intros l o Hl. apply Hle; [|by apply Hle2].
    apply lookup_lt_Some in Hl. lia. }
  destruct top as [| | | | |l]; cbn in Hcl;
    try (injection Hcl as <- <-; cbn in Hprep; injection Hprep as <- <-;
         apply (Hgo (List.length h)); [done|lia|apply heap_le_alloc|];
         left; eexists; apply lookup_alloc).
  - injection Hcl as <- <-. cbn in Hprep. injection Hprep as <- <-.
    cbn in Hc. subst rest. exists h, VNull, pc. split; [done|apply heap_le_refl].
  - cbn in Hv. apply bool_decide_eq_true in Hv.
    destruct (lookup_lt_is_Some_2 h l Hv) as [o Ho]. rewrite Ho in Hcl.
    destruct o as [fs|xs ps]; cbn in Hcl; injection Hcl as <- <-;
      cbn in Hprep; injection Hprep as <- <-;
      (apply (Hgo (List.length h)); [done|lia|apply heap_le_alloc|]).
    + left. eexists. apply lookup_alloc.
    + right. split; [eexists _, _; apply lookup_alloc|].
      apply Hc. by eexists _, _.
Qed.

(** A call of [set] with a nested path that returned normally leaves a
    top-level value through which the same walk succeeds again. *)
Lemma set_nested_walk_cond n st p v opts st1 a pc rest :
  wf_state st = true -> split_dot p = a :: pc :: rest ->
  set n st (VStr p) v opts = Ok st1 ->
  walk_cond (st_heap st1) (oldGet st1 a) pc rest.
Proof.
  intros Hwf Hp Hset.
  pose proof (wf_state_oldGet st a Hwf) as Hvtop.
  unfold set, set_each in Hset. inv_bind Hset. injection Hset as <-.
  inv_bind Ha. injection Ha as <-.
  unfold set_one in Ha0. rewrite Hp in Ha0.
  rewrite (get_single st a) in Ha0
    by (apply (split_dot_piece p _ a Hp); by left).
  cbn [bind] in Ha0.
  destruct (clone (st_heap st) (oldGet st a)) as [h1 tlv] eqn:Ecl.
  destruct (if typeof_object tlv then (h1, tlv)
            else let '(h', e) := alloc h1 (OObj []) in (h', VRef e))
    as [h2 toSet] eqn:Eprep.
  inv_bind Ha0. destruct a0 as [[h3 ptr] last]. cbn beta iota in Ha0.
  inv_bind Ha0. inv_bind Ha0.
  set (h := st_heap st) in *.
  (* what the first call walked through *)
  assert (heap_le h h1 /\ heap_le h1 h2) as [Hle1 Hle2].
  { split.
    - destruct (oldGet st a) as [| | | | |l]; cbn in Ecl;
        try (injection Ecl as <- <-; apply heap_le_refl).
      destruct (h !! l) as [[fs|xs ps]|]; cbn in Ecl; injection Ecl as <- <-;
        try apply heap_le_alloc; apply heap_le_refl.
    - destruct (typeof_object tlv); cbn in Eprep; injection Eprep as <- <-;
        [apply heap_le_refl|apply heap_le_alloc]. }
  assert (forall t, toSet = VRef t ->
            (List.length h <= t)%nat /\ (is_obj h2 t \/ is_arr h2 t) /\
            (forall l, oldGet st a = VRef l -> is_arr h l -> is_arr h2 t))
    as HtoSet.
  { intros t ->. destruct (oldGet st a) as [| | | | |l] eqn:Etop; cbn in Ecl;
      try (injection Ecl as <- <-; cbn in Eprep; congruence);
      try (injection Ecl as <- <-; cbn in Eprep; injection Eprep as <- <-;
           split; [lia|]; split; [left; eexists; apply lookup_alloc|done]).
    cbn in Hvtop. apply bool_decide_eq_true in Hvtop.
    destruct (lookup_lt_is_Some_2 h l Hvtop) as [o Ho]. rewrite Ho in Ecl.
    destruct o as [fs|xs ps]; cbn in Ecl; injection Ecl as <- <-;
      cbn in Eprep; injection Eprep as <- <-; (split; [lia|]); split.
    - left. eexists. apply lookup_alloc.
    - intros l' [= <-] (xs & ps & Hl). congruence.
    - right. eexists _, _. apply lookup_alloc.
    - intros _ _ _. eexists _, _. apply lookup_alloc. }
  assert (forall t, toSet = VRef t -> heap_le h h3) as Hle3.
  { intros t ->. destruct (HtoSet t eq_refl) as (Ht & _ & _).
    apply set_walk_frame in Ha as [Hle _].
    intros l o Hl. apply Hle; [|by apply Hle2, Hle1].
    apply lookup_lt_Some in Hl. lia. }
  destruct a2.
  - (* nothing was committed *)
    injection Ha0 as <-. cbn [finish_set fst snd]. unfold with_heap, oldGet. cbn.
    fold (oldGet st a).
    destruct (oldGet st a) as [| | | | |l] eqn:Etop; try done.
    + cbn in Ecl. injection Ecl as <- <-. cbn in Eprep. injection Eprep as <- <-.
      cbn. by eapply set_walk_null.
    + cbn. intros Harr.
      cbn in Hvtop. apply bool_decide_eq_true in Hvtop.
      destruct (lookup_lt_is_Some_2 h l Hvtop) as [o Ho].
      assert (exists t, toSet = VRef t) as [t ->].
      { cbn in Ecl. rewrite Ho in Ecl.
        destruct o; cbn in Ecl; injection Ecl as <- <-; cbn in Eprep;
          injection Eprep as <- <-; eauto. }
      destruct (HtoSet t eq_refl) as (_ & _ & Harr2).
      eapply set_walk_arr_inv; [|exact Ha]. apply (Harr2 l eq_refl).
      destruct Harr as (xs & ps & Hl3).
      rewrite (Hle3 t eq_refl _ _ Ho) in Hl3. injection Hl3 as ->.
      by eexists _, _.
  - (* the new value was committed *)
    inv_bind Ha0. inv_bind Ha0. injection Ha0 as <-.
    unfold oldSet in Ha4. injection Ha4 as <-.
    unfold oldGet, finish_set, trigger, with_heap. cbn.
    rewrite lookup_insert_eq. cbn [or_undef].
    destruct toSet as [| | | | |t]; try done.
    + cbn. by eapply set_walk_null.
    + cbn. intros Harr4.
      destruct (HtoSet t eq_refl) as (_ & [Hobj|Harr2] & _).
      * exfalso. eapply is_obj_not_arr; [|exact Harr4].
        apply (setProp_kinds _ _ _ _ _ Ha3).
        by apply (set_walk_frame _ _ _ _ _ _ _ _ Ha).
      * by eapply set_walk_arr_inv.
Qed.

Lemma clone_le h v h1 tlv : clone h v = (h1, tlv) -> heap_le h h1.
Proof.
  destruct v as [| | | | |l]; cbn; try (intros [= <- <-]; apply heap_le_refl).
  destruct (h !! l) as [[fs|xs ps]|]; cbn; intros [= <- <-];
    try apply heap_le_alloc; apply heap_le_refl.
Qed.



(** * Further properties of [set] *)

(** What one [(attribute, value)] pair does to the bag and the event log:
    nothing, or one write under the first piece and one [change:<attribute>]
    event. *)
Lemma set_one_effect n opts st flag p v st' flag' a rest :
  split_dot p = a :: rest ->
  set_one n opts (st, flag) p v = Ok (st', flag') ->
  (attributes st' = attributes st /\ triggered st' = triggered st /\ flag' = flag)
  \/ (exists x, attributes st' = <[a := x]> (attributes st) /\
                triggered st' =
                  triggered st ++ [Event ("change:" +:+ p) [AModel; AVal v; AVal opts]] /\
                flag' = true).
Proof.
  intros Hp. unfold set_one. rewrite Hp. intros H. inv_bind H.
  destruct (clone (st_heap st) a0) as [h1 tlv].
  destruct rest as [|pc rest].
  - apply split_dot_single in Hp as ->. inv_bind H. destruct a1.
    + injection H as <- <-. by left.
    + inv_bind H. injection H as <- <-. unfold oldSet in Ha1. injection Ha1 as <-.
      right. by eexists.
  - destruct (if typeof_object tlv then (h1, tlv)
              else let '(h', e) := alloc h1 (OObj []) in (h', VRef e))
      as [h2 toSet].
    inv_bind H. destruct a1 as [[h3 ptr] last]. cbn beta iota in H.
    inv_bind H. inv_bind H. destruct a2.
    + injection H as <- <-. by left.
    + inv_bind H. inv_bind H. injection H as <- <-.
      unfold oldSet in Ha4. injection Ha4 as <-. right. by eexists.
Qed.

Lemma set_each_effect n opts pairs : forall st flag st' flag',
  set_each n opts (st, flag) pairs = Ok (st', flag') ->
  exists fired,
    triggered st' = triggered st ++ fired /\
    sublist fired (map (change_event opts) pairs) /\
    flag' = (if fired is [] then flag else true) /\
    (forall k, (forall pr, In pr pairs -> first_piece pr.1 <> k) ->
               attributes st' !! k = attributes st !! k).
Proof.
  induction pairs as [|[p v] pairs IH]; intros st flag st' flag'; cbn [set_each].
  - intros [= <- <-]. exists []. rewrite app_nil_r. repeat split; try done.
  - intros H. inv_bind H. destruct a as [st1 flag1].
    destruct (split_dot p) as [|a rest] eqn:Hp;
      [by destruct (split_dot_nonempty p)|].
    apply IH in H as (fired & Htr & Hsub & Hflag & Hfr).
    destruct (set_one_effect _ _ _ _ _ _ _ _ _ _ Hp Ha)
      as [(Hat & Htr1 & ->)|(x & Hat & Htr1 & ->)].
    + exists fired. rewrite Htr, Htr1. split; [done|].
      split; [by apply sublist_cons|]. split; [done|].
      intros k Hk. rewrite Hfr, Hat; [done|]. intros pr Hpr. apply Hk. by right.
    + exists (change_event opts (p, v) :: fired). rewrite Htr, Htr1.
      split; [by rewrite <- app_assoc|]. split; [by apply sublist_skip|].
      split; [by destruct fired|].
      intros k Hk. rewrite Hfr, Hat.
      * apply lookup_insert_ne. specialize (Hk (p, v) (or_introl eq_refl)).
        unfold first_piece in Hk. cbn in Hk. by rewrite Hp in Hk.
      * intros pr Hpr. apply Hk. by right.
Qed.





(** X3: [typeof null] is ["object"], so a top-level [null] is taken for the
    object to write through: [set] of a path of three or more pieces under
    it throws, and so does [set] of a two-piece path unless the value set is
    [null] itself. *)
Theorem set_through_null_throws n st p a b rest v opts :
  split_dot p = a :: b :: rest ->
  oldGet st a = VNull ->
  rest <> [] \/ v <> VNull ->
  set n st (VStr p) v opts = Throw.
Proof.
  intros Hp Htop Hv. unfold set, set_each, set_one. rewrite Hp.
  rewrite (get_single st a)
    by (apply (split_dot_piece p _ a Hp); by left).
  cbn [bind]. rewrite Htop. cbn [clone typeof_object].
  destruct rest as [|c rest]; [|done].
  cbn [set_walk bind]. unfold get. rewrite Hp.
  unfold oldGet, with_heap in Htop |- *. cbn [attributes st_heap]. rewrite Htop.
  cbn [get_loop nullOrUndefined bind]. rewrite isEqual_unfold.
  destruct Hv as [?|Hv]; [done|].
  rewrite bool_decide_eq_false_2 by congruence. done.
Qed.

Lemma set_through_null_throws_witness :
  set 3 (MState [] (<["a" := VNull]> ∅) []) (VStr "a.b.c") (VNum 1) VUndef = Throw.
Proof.
  apply (set_through_null_throws 3 _ "a.b.c" "a" "b" ["c"]);
    [reflexivity | reflexivity | by left].
Defined.

(** ** Writing a property and reading it back *)

Lemma setProp_lookup_ne h q k v h' l :
  setProp h (VRef q) k v = Ok h' -> l <> q -> h' !! l = h !! l.
Proof.
  unfold setProp. intros H Hne.
  destruct (h !! q) as [[fs|xs ps]|]; [| |by injection H as <-].
  - injection H as <-. by rewrite list_lookup_insert_ne.
  - destruct (String.eqb k "length").
    + destruct v; try done. destruct (0 <=? z)%Z; [|done].
      injection H as <-. by rewrite list_lookup_insert_ne.
    + destruct (array_index k) as [i|]; [destruct (i <? List.length xs)%nat|];
        injection H as <-; by rewrite list_lookup_insert_ne.
Qed.

Lemma getProp_lookup h h' l k :
  h' !! l = h !! l -> getProp h' (VRef l) k = getProp h (VRef l) k.
Proof. unfold getProp. by intros ->. Qed.

Lemma setProp_getProp h l o k v h' :
  h !! l = Some o -> setProp h (VRef l) k v = Ok h' ->
  getProp h' (VRef l) k = Ok v.
Proof.
  intros Hl. pose proof (lookup_lt_Some _ _ _ Hl) as Hlt.
  unfold setProp, getProp. rewrite Hl. destruct o as [fs|xs ps].
  - intros [= <-]. rewrite list_lookup_insert_eq by done.
    by rewrite assoc_set_same.
  - destruct (String.eqb k "length") eqn:Ek.
    + destruct v; try done. destruct (0 <=? z)%Z eqn:Ez; [|done].
      intros [= <-]. rewrite list_lookup_insert_eq by done.
      rewrite length_app, length_take, length_replicate.
      f_equal. f_equal. apply Z.leb_le in Ez. lia.
    + destruct (array_index k) as [i|] eqn:Ei.
      * destruct (i <? List.length xs)%nat eqn:Elt; intros [= <-];
          rewrite list_lookup_insert_eq by done.
        -- apply Nat.ltb_lt in Elt. by rewrite list_lookup_insert_eq.
        -- apply Nat.ltb_ge in Elt.
           rewrite lookup_app_r by done.
           rewrite lookup_app_r by (rewrite length_replicate; lia).
           rewrite length_replicate.
           by replace (i - List.length xs - (i - List.length xs))%nat with 0%nat by lia.
      * intros [= <-]. rewrite list_lookup_insert_eq by done.
        by rewrite assoc_set_same.
Qed.

Lemma getProp_from h h' l o k x :
  h' !! l = Some o -> obj_ok h o = true -> getProp h' (VRef l) k = Ok x ->
  val_ok h x = true.
Proof.
  intros Hl Ho. unfold getProp. rewrite Hl. destruct o as [fs|xs ps].
  - intros [= <-]. destruct (assoc k fs) as [y|] eqn:Ek; [|done].
    apply (obj_ok_vals _ _ _ Ho). by eapply assoc_In_snd.
  - destruct (String.eqb k "length"); [by intros [= <-]|].
    destruct (array_index k) as [i|].
    + intros [= <-]. destruct (xs !! i) as [y|] eqn:Ei; [|done].
      apply (obj_ok_vals _ _ _ Ho). cbn. apply in_or_app. left.
      apply list_elem_of_In. by eapply list_elem_of_lookup_2.
    + intros [= <-]. destruct (assoc k ps) as [y|] eqn:Ek; [|done].
      apply (obj_ok_vals _ _ _ Ho). cbn. apply in_or_app. right.
      by eapply assoc_In_snd.
Qed.

(** The value [set] writes through is [null], or a new object at the end of
    the heap: a copy of the top-level object or array, or [{}]. *)
Lemma toSet_cases (h : heap) top h1 tlv h2 toSet :
  heap_ok h = true -> val_ok h top = true ->
  clone h top = (h1, tlv) ->
  (if typeof_object tlv then (h1, tlv)
   else let '(h', e) := alloc h1 (OObj []) in (h', VRef e)) = (h2, toSet) ->
  (toSet = VNull /\ h2 = h) \/
  (exists o, toSet = VRef (List.length h) /\ h2 = h ++ [o] /\ obj_ok h o = true).
Proof.
  intros Hh Hv Hcl Hprep.
  destruct top as [| | | | |l]; cbn in Hcl;
    try (injection Hcl as <- <-; cbn in Hprep; injection Hprep as <- <-;
         right; by exists (OObj [])).
  - injection Hcl as <- <-. cbn in Hprep. injection Hprep as <- <-. by left.
  - cbn in Hv. apply bool_decide_eq_true in Hv.
    destruct (lookup_lt_is_Some_2 h l Hv) as [o Ho]. rewrite Ho in Hcl.
    pose proof (heap_ok_lookup _ _ _ Hh Ho) as Hok.
    destruct o as [fs|xs ps]; cbn in Hcl; injection Hcl as <- <-;
      cbn in Hprep; injection Hprep as <- <-; right.
    + by exists (OObj fs).
    + exists (OArr xs []). repeat split. cbn in Hok |- *.
      apply andb_true_iff in Hok as [_ Hok]. rewrite forallb_app in Hok.
      apply andb_true_iff in Hok as [Hxs _].
      by rewrite app_nil_r.
Qed.

Lemma get_trigger st name args p : get (trigger st name args) p = get st p.
Proof. done. Qed.

Lemma set_one_get n opts st p v st1 flag :
  wf_state st = true ->
  (List.length (split_dot p) <= 3)%nat ->
  set_one n opts (st, false) p v = Ok (st1, flag) ->
  (flag = true /\ get st1 p = Ok v) \/
  (flag = false /\ exists h', st1 = with_heap st h' /\ heap_le (st_heap st) h').
Proof.
  intros Hwf Hlen.
  pose proof (wf_state_heap _ Hwf) as Hh.
  destruct (split_dot p) as [|a rest] eqn:Hp;
    [by destruct (split_dot_nonempty p)|].
  unfold set_one. rewrite Hp.
  rewrite (get_single st a)
    by (apply (split_dot_piece p _ a Hp); by left).
  cbn [bind].
  destruct (clone (st_heap st) (oldGet st a)) as [h1 tlv] eqn:Ecl.
  pose proof (clone_le _ _ _ _ Ecl) as Hle1.
  destruct rest as [|b rest].
  { (* a top-level attribute *)
    intros H. inv_bind H. destruct a0.
    - injection H as <- <-. right. split; [done|]. by exists h1.
    - inv_bind H. injection H as <- <-. unfold oldSet in Ha0. injection Ha0 as <-.
      left. split; [done|]. unfold get. rewrite Hp.
      unfold oldGet, trigger, with_heap. cbn.
      pose proof (split_dot_single _ _ Hp) as ->. by rewrite lookup_insert_eq. }
  destruct (if typeof_object tlv then (h1, tlv)
            else let '(h', e) := alloc h1 (OObj []) in (h', VRef e))
    as [h2 toSet] eqn:Eprep.
  set (h := st_heap st) in *.
  destruct (toSet_cases h _ _ _ _ _ Hh (wf_state_oldGet st a Hwf) Ecl Eprep)
    as [[-> ->]|(o & -> & -> & Hok)].
  { (* the top-level value is null *)
    destruct rest as [|c rest]; [|done].
    cbn [set_walk bind]. intros H. inv_bind H. inv_bind H. destruct a1.
    - injection H as <- <-. right. split; [done|]. exists h.
      split; [done|apply heap_le_refl].
    - by inv_bind H. }
  assert (heap_le h (h ++ [o])) as Hle2 by apply heap_le_alloc.
  assert ((h ++ [o]) !! (List.length h) = Some o) as Ht by apply lookup_alloc.
  destruct rest as [|c rest].
  { (* two pieces *)
    cbn [set_walk bind]. intros H. inv_bind H. inv_bind H. destruct a1.
    - injection H as <- <-. right. split; [done|]. by exists (h ++ [o]).
    - inv_bind H. inv_bind H. injection H as <- <-.
      unfold oldSet in Ha2. injection Ha2 as <-.
      left. split; [done|]. unfold get. rewrite Hp.
      unfold oldGet, trigger, with_heap. cbn [attributes st_heap].
      rewrite lookup_insert_eq. cbn [or_undef get_loop nullOrUndefined].
      by rewrite (setProp_getProp _ _ _ _ _ _ Ht Ha1). }
  destruct rest as [|d rest]; [|cbn in Hlen; lia].
  (* three pieces *)
  cbn [set_walk]. intros H. inv_bind H. destruct a0 as [[h3 ptr] last].
  inv_bind Ha. inv_bind Ha. inv_bind Ha. injection Ha as -> -> <-.
  cbn beta iota in H.
  (* the heap after the walk, and where [ptr] points *)
  assert (heap_le h h3 /\ h3 !! (List.length h) <> None /\
          (forall q, ptr = VRef q -> q <> (List.length h) /\ h3 !! q <> None))
    as (Hle3 & Ht3 & Hptr).
  { pose proof (getProp_from _ _ _ _ _ _ Ht Hok Ha0) as Hvx.
    destruct (typeof_object a0) eqn:Ex.
    - injection Ha1 as <-. rewrite Ha0 in Ha2. injection Ha2 as <-.
      split; [done|]. split; [by rewrite Ht|].
      intros q ->. cbn in Hvx. apply bool_decide_eq_true in Hvx.
      split; [lia|].
      rewrite lookup_app_l by done.
      by destruct (lookup_lt_is_Some_2 h q Hvx) as [? ->].
    - cbn [alloc] in Ha1.
      assert (((h ++ [o]) ++ [OObj []]) !! (List.length h) = Some o) as Ht'
        by by apply lookup_app_l_Some.
      rewrite (setProp_getProp _ _ _ _ _ _ Ht' Ha1) in Ha2. injection Ha2 as <-.
      assert (forall l, l <> List.length h ->
                        h3 !! l = ((h ++ [o]) ++ [OObj []]) !! l) as Hne
        by (intros l Hl; by eapply setProp_lookup_ne).
      split; [|split].
      + intros l o' Hl. rewrite Hne.
        * by apply lookup_app_l_Some, lookup_app_l_Some.
        * apply lookup_lt_Some in Hl. lia.
      + apply setProp_kinds in Ha1 as (Hobj & Harr & _).
        destruct o as [fs|xs ps].
        * destruct (Hobj (List.length h)) as [? ->]; [by eexists|done].
        * destruct (Harr (List.length h)) as (? & ? & ->); [by eexists _, _|done].
      + intros q [= <-]. rewrite length_app. cbn. split; [lia|].
        rewrite Hne by lia.
        replace (List.length h + 1)%nat with (List.length (h ++ [o]))
          by (rewrite length_app; cbn; lia).
        by rewrite lookup_alloc. }
  inv_bind H. inv_bind H. destruct a2.
  - injection H as <- <-. right. split; [done|]. by exists h3.
  - inv_bind H. inv_bind H. injection H as <- <-.
    unfold oldSet in Ha5. injection Ha5 as <-.
    left. split; [done|].
    destruct ptr as [| | | | |q]; try done.
    destruct (Hptr q eq_refl) as [Hqt Hq].
    destruct (h3 !! q) as [oq|] eqn:Eq; [|done].
    unfold get. rewrite Hp.
    unfold oldGet, trigger, with_heap. cbn [attributes st_heap].
    rewrite lookup_insert_eq. cbn [or_undef get_loop nullOrUndefined].
    rewrite (getProp_lookup h3 a2 (List.length h) b)
      by (eapply setProp_lookup_ne; [exact Ha4|by apply not_eq_sym]).
    rewrite Ha2. cbn [bind nullOrUndefined].
    by rewrite (setProp_getProp _ _ _ _ _ _ Eq Ha4).
Qed.



(** X5: when the top-level value under [a] is no object ([undefined], a
    number, a string, a boolean), [set("a.b", v)] with [v] different from
    what [get("a.b")] returns puts a new object [{ b: v }] under [a]. *)
Theorem set_synthesizes_object n st p a b v opts old :
  split_dot p = [a; b] ->
  typeof_object (oldGet st a) = false ->
  get st p = Ok old -> old <> v ->
  exists st',
    set n st (VStr p) v opts = Ok st' /\
    get st' a = Ok (VRef (List.length (st_heap st))) /\
    st_heap st' !! List.length (st_heap st) = Some (OObj [(b, v)]) /\
    get st' p = Ok v /\
    heap_le (st_heap st) (st_heap st').
Proof.
  intros Hp Htop Hold Hne.
  assert (split_dot a = [a]) as Ha
    by (apply (split_dot_piece p _ a Hp); by left).
  unfold set, set_each, set_one. rewrite Hp, (get_single st a Ha). cbn [bind].
  assert (clone (st_heap st) (oldGet st a) = (st_heap st, oldGet st a)) as ->
    by by destruct (oldGet st a).
  rewrite Htop. cbn [alloc set_walk bind].
  set (h := st_heap st).
  assert (get (with_heap st (h ++ [OObj []])) p = Ok old) as ->.
  { rewrite <- Hold. unfold get. rewrite Hp. unfold with_heap, oldGet.
    cbn [attributes st_heap]. fold (oldGet st a). cbn [get_loop].
    destruct (oldGet st a); try done. }
  cbn [bind].
  assert (forall l, old <> VRef l) as Hscalar.
  { intros l ->. unfold get in Hold. rewrite Hp in Hold. cbn [get_loop] in Hold.
    destruct (oldGet st a) as [| | | | |l'] eqn:E; try done;
      unfold getProp in Hold; cbn in Hold; try congruence.
    destruct (String.eqb b "length"); [done|].
    destruct (array_index b) as [i|]; [|done]. by destruct (String.get i s). }
  assert (isEqual n (h ++ [OObj []]) old v = Ok false) as ->.
  { rewrite isEqual_unfold.
    destruct old; try (by rewrite bool_decide_eq_false_2);
      try (destruct v; by rewrite bool_decide_eq_false_2).
    by destruct (Hscalar l). }
  cbn [bind].
  rewrite (setProp_obj _ _ [] b v (lookup_alloc h (OObj []))). cbn [bind].
  unfold oldSet. cbn [bind]. eexists. split; [reflexivity|].
  unfold finish_set, trigger, with_heap, get, oldGet.
  cbn [fst snd attributes st_heap]. rewrite Ha, Hp, lookup_insert_eq.
  cbn [or_undef get_loop nullOrUndefined assoc_set].
  assert (<[List.length h := OObj [(b, v)]]> (h ++ [OObj []]) !! List.length h
          = Some (OObj [(b, v)])) as Hl.
  { apply list_lookup_insert_eq. rewrite length_app. cbn. lia. }
  split; [done|]. split; [done|]. split.
  - rewrite (getProp_obj _ _ _ _ Hl). cbn. by rewrite String.eqb_refl.
  - apply heap_le_insert_fresh; [apply heap_le_alloc|lia].
Qed.

Lemma set_synthesizes_object_witness :
  exists st',
    set 1 (MState [] (<["a" := VNum 7]> ∅) []) (VStr "a.b") (VStr "x") VUndef
      = Ok st' /\
    get st' "a" = Ok (VRef 0) /\
    st_heap st' !! 0%nat = Some (OObj [("b", VStr "x")]) /\
    get st' "a.b" = Ok (VStr "x") /\
    heap_le [] (st_heap st').
Proof.
  apply (set_synthesizes_object 1 (MState [] (<["a" := VNum 7]> ∅) [])
           "a.b" "a" "b" (VStr "x") VUndef VUndef);
    [reflexivity | reflexivity | reflexivity | discriminate].
Defined.

(** * Further properties of the decoder *)

(** X6: [decode] never writes to an object that existed before the call:
    whatever the input (shared, cyclic, already decoded) and whatever it
    returns, every object of the heap is afterwards as it was. *)
Theorem decode_leaves_input_untouched n h v h' r :
  decode n h v = Ok (h', r) ->
  forall l o, h !! l = Some o -> h' !! l = Some o.
Proof.
  unfold decode. intros H. inv_bind H. destruct a as [[h1 f1] r1].
  injection H as <- <-. by eapply doDecode_frame.
Qed.

Lemma decode_leaves_input_untouched_witness :
  (cycle_input ++
     [ OObj [("next", VRef 5); (JSOG_OBJECT_DECODED, VBool true)];
       OObj [("next", VRef 6); (JSOG_OBJECT_DECODED, VBool true)];
       OObj [("next", VRef 4); (JSOG_OBJECT_DECODED, VBool true)] ]) !! 0%nat
  = Some (OObj [("@id", VStr "1"); ("next", VRef 1)]).
Proof.
  apply (decode_leaves_input_untouched 4 cycle_input (VRef 0) _ (VRef 4));
    [vm_compute; reflexivity | reflexivity].
Defined.

Section decode_shape.
Variable dec : heap -> registry -> value -> res (heap * registry * value).
Hypothesis dec_frame : forall h f v h' f' r,
    dec h f v = Ok (h', f', r) -> heap_le h h'.

Lemma decodeElems_elems r xs : forall h f h' f' rs ps,
  h !! r = Some (OArr rs ps) ->
  decodeElems dec r xs h f = Ok (h', f') ->
  exists ys,
    h' !! r = Some (OArr (rs ++ ys) ps) /\
    Forall2 (fun x y => exists h1 f1 h2 f2, dec h1 f1 x = Ok (h2, f2, y)) xs ys.
Proof.
  induction xs as [|x rest IH]; intros h f h' f' rs ps Hr; cbn.
  - intros [= <- <-]. exists []. rewrite app_nil_r. split; [done|constructor].
  - intros H. inv_bind H. destruct a as [[h1 f1] y]. cbn beta iota in H.
    pose proof (dec_frame _ _ _ _ _ _ Ha) as Hle.
    rewrite (Hle _ _ Hr) in H.
    apply (IH _ _ _ _ (rs ++ [y]) ps) in H as (ys & Hr' & Hys).
    + exists (y :: ys). rewrite <- app_assoc in Hr'. split; [done|].
      constructor; [eauto 6|done].
    + apply list_lookup_insert_eq. eapply lookup_lt_Some. by apply Hle.
Qed.

Lemma decodeFields_keys r fs : forall h f h' f' acc,
  h !! r = Some (OObj acc) ->
  NoDup (map fst fs) ->
  (forall k, In k (map fst fs) -> ~ In k (map fst acc)) ->
  decodeFields dec r fs h f = Ok (h', f') ->
  exists acc',
    h' !! r = Some (OObj acc') /\
    map fst acc' =
      map fst acc ++ filter (fun k => k <> "@id") (map fst fs).
Proof.
  induction fs as [|[key v] rest IH]; intros h f h' f' acc Hr Hnd Hdis; cbn.
  - intros [= <- <-]. exists acc. by rewrite app_nil_r.
  - cbn in Hnd. apply NoDup_cons in Hnd as [Hkey Hnd].
    destruct (String.eqb_spec key "@id") as [->|Hne].
    + intros H. apply (IH _ _ _ _ acc) in H as (acc' & Hr' & Hk); try done.
      * exists acc'. split; [done|]. rewrite Hk.
        by destruct (decide ("@id" <> "@id")).
      * intros k Hk. apply Hdis. by right.
    + intros H. inv_bind H. destruct a as [[h1 f1] y]. cbn beta iota in H.
      pose proof (dec_frame _ _ _ _ _ _ Ha) as Hle.
      rewrite (setProp_obj _ _ _ _ _ (Hle _ _ Hr)) in H. cbn [bind] in H.
      assert (map fst (assoc_set key y acc) = map fst acc ++ [key]) as Hkeys.
      { assert (~ In key (map fst acc)) as Hnin by (apply Hdis; by left).
        clear -Hnin. induction acc as [|[k' v'] acc IHacc]; [done|].
        cbn in Hnin |- *. destruct (String.eqb_spec key k') as [->|_]; [tauto|].
        cbn. f_equal. apply IHacc. tauto. }
      apply (IH _ _ _ _ (assoc_set key y acc)) in H as (acc' & Hr' & Hk);
        try done.
      * exists acc'. split; [done|]. rewrite Hk, Hkeys, <- app_assoc.
        cbn. destruct (decide (key <> "@id")) as [_|Hn]; [done|by destruct Hn].
      * apply list_lookup_insert_eq. eapply lookup_lt_Some. by apply Hle.
      * intros k Hk. rewrite Hkeys. intros [Hin|[->|[]]]%in_app_or.
        -- apply (Hdis k); [by right|done].
        -- apply Hkey. by apply list_elem_of_In.
Qed.
End decode_shape.





(** * The collection *)

(** ** Paging *)

Lemma with_pageNo_twice c p q : with_pageNo (with_pageNo c p) q = with_pageNo c q.
Proof. reflexivity. Qed.

Lemma with_pageNo_same c : with_pageNo c (_pageNo c) = c.
Proof. by destruct c. Qed.

Lemma ceil_div_pos t ps :
  (0 < ps)%Z ->
  exists m, ceil_div t ps = Finite (m + 1) /\ (m * ps < t <= (m + 1) * ps)%Z.
Proof.
  intros Hps. unfold ceil_div.
  destruct (Z.eqb_spec ps 0) as [?|_]; [lia|].
  exists (- (- t / ps) - 1)%Z. split; [f_equal; lia|].
  pose proof (Z.div_mod (- t) ps ltac:(lia)) as Hdm.
  pose proof (Z.mod_pos_bound (- t) ps Hps) as Hb. nia.
Qed.

(** X9: on a server-side collection with a known record count [t] and a
    positive page size, [setPageNo] leaves a page number [k] that is an
    integer, whatever was passed (a string, [NaN], an infinity): [k] is not
    negative, the offset [k * _pageSize] of its first record is below [t]
    when there are records, [k] is 0 when there are none, a requested page
    that meets these bounds is kept, and [getPaginationParams] then asks
    for that offset. *)
Theorem setPageNo_server_in_range pageNo c t :
  isServerSide c = true ->
  _totalRecords c = Some t ->
  (0 < _pageSize c)%Z ->
  exists k,
    _pageNo (setPageNo pageNo c) = PNumber (Finite k) /\
    (0 <= k)%Z /\
    (0 < t -> k * _pageSize c < t)%Z /\
    (t <= 0 -> k = 0)%Z /\
    (forall z, pageNo = PNumber (Finite z) ->
               (0 <= z)%Z -> (z * _pageSize c < t)%Z -> k = z) /\
    (startParam c <> countParam c ->
     getPaginationParams (setPageNo pageNo c) =
       Some [(startParam c, Finite (k * _pageSize c));
             (countParam c, Finite (_pageSize c))]).
Proof.
  intros Hs Ht Hps.
  destruct (ceil_div_pos t _ Hps) as (m & Hm & Hlo & Hhi).
  assert (forall k, _pageNo (setPageNo pageNo c) = PNumber (Finite k) ->
            startParam c <> countParam c ->
            getPaginationParams (setPageNo pageNo c) =
              Some [(startParam c, Finite (k * _pageSize c));
                    (countParam c, Finite (_pageSize c))]) as Hpar.
  { intros k Hk Hne. unfold getPaginationParams. rewrite Hk. cbn.
    replace (_pageSize (setPageNo pageNo c)) with (_pageSize c)
      by (unfold setPageNo, validatePageNo; cbn;
          by repeat case_match).
    replace (startParam (setPageNo pageNo c)) with (startParam c)
      by (unfold setPageNo, validatePageNo; cbn; by repeat case_match).
    replace (countParam (setPageNo pageNo c)) with (countParam c)
      by (unfold setPageNo, validatePageNo; cbn; by repeat case_match).
    destruct (String.eqb_spec (countParam c) (startParam c)); [congruence|done]. }
  assert (exists k, _pageNo (setPageNo pageNo c) = PNumber (Finite k) /\
            (0 <= k)%Z /\ (0 < t -> k * _pageSize c < t)%Z /\
            (t <= 0 -> k = 0)%Z /\
            (forall z, pageNo = PNumber (Finite z) ->
               (0 <= z)%Z -> (z * _pageSize c < t)%Z -> k = z)) as (k & Hk & ?).
  { unfold setPageNo, validatePageNo, isServerSide in *. cbn.
    rewrite Hs, Ht, Hm. unfold Math_round.
    destruct pageNo as [[z| | |]|]; cbn.
    - replace (m + 1 + -1)%Z with m by lia.
      exists (Z.max 0 (Z.min m z)). split; [done|].
      split; [lia|]. split; [nia|]. split; [nia|].
      intros z' [= <-] ? ?. nia.
    - replace (m + 1 + -1)%Z with m by lia.
      exists (Z.max 0 m). split; [done|]. split; [lia|].
      split; [nia|]. split; [nia|]. by intros.
    - exists 0%Z. split; [done|]. split; [done|]. split; [lia|]. by split.
    - exists 0%Z. split; [done|]. split; [done|]. split; [lia|]. by split.
    - exists 0%Z. split; [done|]. split; [done|]. split; [lia|]. by split. }
  exists k. split; [done|]. repeat (split; [tauto|]). by apply Hpar.
Qed.

Lemma setPageNo_server_in_range_witness :
  exists k,
    _pageNo (setPageNo (PNumber (Finite 9))
               (Collection (PNumber (Finite 0)) 20 (Some 45%Z) "start" "count"
                  "sort" "|" [] 3 0 true 20))
      = PNumber (Finite k) /\
    (0 <= k)%Z /\
    (0 < 45 -> k * 20 < 45)%Z /\
    (45 <= 0 -> k = 0)%Z /\
    (forall z, PNumber (Finite 9) = PNumber (Finite z) ->
               (0 <= z)%Z -> (z * 20 < 45)%Z -> k = z) /\
    ("start" <> "count" ->
     getPaginationParams
       (setPageNo (PNumber (Finite 9))
          (Collection (PNumber (Finite 0)) 20 (Some 45%Z) "start" "count"
             "sort" "|" [] 3 0 true 20)) =
       Some [("start", Finite (k * 20)); ("count", Finite 20)]).
Proof.
  apply (setPageNo_server_in_range (PNumber (Finite 9))
           (Collection (PNumber (Finite 0)) 20 (Some 45%Z) "start" "count"
              "sort" "|" [] 3 0 true 20) 45%Z);
    [reflexivity | reflexivity | cbn; lia].
Defined.

(** X10: with a page size other than 0, validating a page number a second
    time changes nothing. *)
Theorem validatePageNo_idempotent c :
  _pageSize c <> 0%Z ->
  validatePageNo (validatePageNo c) = validatePageNo c.
Proof.
  intros Hps. destruct c as [p ps t sp cp so se ss ms pa sv md].
  cbn in Hps. unfold validatePageNo, isServerSide, with_pageNo, Math_round.
  cbn [_pageNo _pageSize _totalRecords startParam countParam sortParam
       sortSeparator sorts maxSorts params server models].
  assert (forall x, exists m, ceil_div x ps = Finite m) as Hc.
  { intros x. unfold ceil_div. destruct (Z.eqb_spec ps 0); [done|by eexists]. }
  destruct sv, t as [t|]; try destruct (Hc t) as [m Hm];
    destruct p as [[z| | |]|];
    repeat (rewrite ?Hm;
            cbn [Math_min Math_max num_plus _pageNo _pageSize _totalRecords
                 server]);
    try reflexivity;
    do 2 f_equal; f_equal; lia.
Qed.

Lemma validatePageNo_idempotent_witness :
  validatePageNo (validatePageNo
    (Collection (PNumber (Finite 7)) 20 (Some 45%Z) "start" "count" "sort"
                "|" [] 3 0 true 20)) =
  validatePageNo
    (Collection (PNumber (Finite 7)) 20 (Some 45%Z) "start" "count" "sort"
                "|" [] 3 0 true 20).
Proof.
  apply (validatePageNo_idempotent
           (Collection (PNumber (Finite 7)) 20 (Some 45%Z) "start" "count"
                       "sort" "|" [] 3 0 true 20)).
  cbn. lia.
Defined.

(** X11: on a server-side collection with a record count of 0 and a page
    size of 0, [setPageNo] with a number leaves [NaN] as the page number;
    validating again gives 0, and once more [NaN]. *)
Theorem setPageNo_zero_size_nan x c :
  isServerSide c = true ->
  _totalRecords c = Some 0%Z ->
  _pageSize c = 0%Z ->
  x <> NaN ->
  _pageNo (setPageNo (PNumber x) c) = PNumber NaN /\
  _pageNo (validatePageNo (setPageNo (PNumber x) c)) = PNumber (Finite 0) /\
  _pageNo (validatePageNo (validatePageNo (setPageNo (PNumber x) c)))
    = PNumber NaN.
Proof.
  intros Hs Ht Hps Hx. unfold isServerSide in Hs.
  destruct c as [p ps t sp cp so se ss ms pa sv md]. cbn in Hs, Ht, Hps.
  subst. by destruct x.
Qed.

Lemma setPageNo_zero_size_nan_witness :
  _pageNo (setPageNo (PNumber (Finite 2))
             (Collection (PNumber (Finite 0)) 0 (Some 0%Z) "start" "count"
                         "sort" "|" [] 3 0 true 0)) = PNumber NaN /\
  _pageNo (validatePageNo (setPageNo (PNumber (Finite 2))
             (Collection (PNumber (Finite 0)) 0 (Some 0%Z) "start" "count"
                         "sort" "|" [] 3 0 true 0))) = PNumber (Finite 0) /\
  _pageNo (validatePageNo (validatePageNo (setPageNo (PNumber (Finite 2))
             (Collection (PNumber (Finite 0)) 0 (Some 0%Z) "start" "count"
                         "sort" "|" [] 3 0 true 0)))) = PNumber NaN.
Proof.
  apply (setPageNo_zero_size_nan (Finite 2)
           (Collection (PNumber (Finite 0)) 0 (Some 0%Z) "start" "count"
                       "sort" "|" [] 3 0 true 0));
    [reflexivity | reflexivity | reflexivity | discriminate].
Defined.

(** X12: [prevPage] on the first page leaves a validated collection as it
    is. *)
Theorem prevPage_first_page c :
  validatePageNo c = c ->
  _pageNo c = PNumber (Finite 0) ->
  prevPage c = Some c.
Proof.
  intros Hv Hp. unfold prevPage. rewrite Hp. cbn. f_equal.
  rewrite <- Hv at 2. destruct c as [p ps t sp cp so se ss ms pa sv md].
  cbn in Hp. subst p. revert Hv.
  unfold setPageNo, validatePageNo, isServerSide, with_pageNo, Math_round.
  cbn [_pageNo _pageSize _totalRecords startParam countParam sortParam
       sortSeparator sorts maxSorts params server models num_plus].
  destruct sv, t as [t|]; try reflexivity.
  destruct (ceil_div t ps) as [m| | |]; cbn; intros Hv; try done.
  injection Hv as Hv. do 2 f_equal. f_equal. lia.
Qed.

Lemma prevPage_first_page_witness :
  prevPage (Collection (PNumber (Finite 0)) 20 (Some 45%Z) "start" "count"
                       "sort" "|" [] 3 0 true 20) =
  Some (Collection (PNumber (Finite 0)) 20 (Some 45%Z) "start" "count"
                   "sort" "|" [] 3 0 true 20).
Proof.
  apply (prevPage_first_page
           (Collection (PNumber (Finite 0)) 20 (Some 45%Z) "start" "count"
                       "sort" "|" [] 3 0 true 20));
    reflexivity.
Defined.

(** X13: on a server-side collection with a known record count,
    [nextPage] on the last page, page [getNumPages() - 1], leaves the
    collection as it is. *)
Theorem nextPage_last_page c t np :
  isServerSide c = true ->
  _totalRecords c = Some t ->
  getNumPages c = Finite np ->
  (1 <= np)%Z ->
  _pageNo c = PNumber (Finite (np - 1)) ->
  nextPage c = Some c.
Proof.
  intros Hs Ht Hnp Hge Hp. unfold nextPage. rewrite Hp. cbn. f_equal.
  unfold getNumPages, getPageSize, size in Hnp. rewrite Hs, Ht in Hnp.
  unfold isServerSide in Hs.
  destruct c as [p ps t' sp cp so se ss ms pa sv md]. cbn in *. subst.
  unfold setPageNo, validatePageNo, isServerSide, with_pageNo, Math_round.
  cbn [_pageNo _pageSize _totalRecords startParam countParam sortParam
       sortSeparator sorts maxSorts params server models num_plus].
  rewrite Hnp. cbn. do 2 f_equal. f_equal. lia.
Qed.

Lemma nextPage_last_page_witness :
  nextPage (Collection (PNumber (Finite 2)) 20 (Some 45%Z) "start" "count"
                       "sort" "|" [] 3 0 true 20) =
  Some (Collection (PNumber (Finite 2)) 20 (Some 45%Z) "start" "count"
                   "sort" "|" [] 3 0 true 20).
Proof.
  apply (nextPage_last_page
           (Collection (PNumber (Finite 2)) 20 (Some 45%Z) "start" "count"
                       "sort" "|" [] 3 0 true 20) 45%Z 3%Z);
    [reflexivity | reflexivity | reflexivity | lia | reflexivity].
Defined.



(** ** Sorting *)

Lemma addSort_names c a d :
  sortParam (addSort c a d) = sortParam c /\
  sortSeparator (addSort c a d) = sortSeparator c /\
  maxSorts (addSort c a d) = maxSorts c.
Proof. by destruct a. Qed.

(** X15: after any sequence of [addSort] calls, [getSortParams] lists one
    entry for each call whose attribute was a string, the latest call first
    and before the sorts there were, each entry being [D] or [A] (by the
    truthiness of the second argument), the separator and the attribute.
    No entry is dropped, however many there are: [maxSorts] sets no bound. *)
Theorem addSort_getSortParams c (adds : list (value * value)) :
  getSortParams (fold_left (fun c' ad => addSort c' ad.1 ad.2) adds c) =
    (sortParam c,
     omap (fun ad => match ad.1 with
                     | VStr a =>
                         Some ((if truthy ad.2 then "D" else "A")
                                 +:+ sortSeparator c +:+ a)
                     | _ => None
                     end) (rev adds)
     ++ (getSortParams c).2).
Proof.
  revert c. induction adds as [|[a d] adds IH]; intros c; [done|].
  cbn [fold_left rev fst snd]. rewrite IH, omap_app.
  destruct (addSort_names c a d) as (-> & -> & _).
  rewrite <- app_assoc. do 2 f_equal. by destruct a.
Qed.

(** ** Query parameters *)

Lemma assoc_set_other k k' v fs :
  k' <> k -> assoc k' (assoc_set k v fs) = assoc k' fs.
Proof.
  intros Hne. induction fs as [|[k0 v0] fs IH]; cbn [assoc_set assoc].
  - by destruct (String.eqb_spec k' k).
  - destruct (String.eqb_spec k k0) as [->|_]; cbn [assoc].
    + by destruct (String.eqb_spec k' k0).
    + by rewrite IH.
Qed.

Lemma assoc_set_notin k v fs :
  ~ In k (map fst fs) -> assoc_set k v fs = fs ++ [(k, v)].
Proof.
  induction fs as [|[k0 v0] fs IH]; cbn [assoc_set map fst In app]; [done|].
  intros Hnin. destruct (String.eqb_spec k k0) as [->|_]; [tauto|].
  rewrite IH; [done|tauto].
Qed.

Lemma assign_assoc k src : forall acc,
  NoDup (map fst src) ->
  assoc k (assign acc src) =
    match assoc k src with Some v => Some v | None => assoc k acc end.
Proof.
  unfold assign.
  induction src as [|[k0 v0] src IH]; intros acc Hnd; [done|].
  cbn [map fst] in Hnd. apply NoDup_cons in Hnd as [Hnin Hnd].
  cbn [fold_left assoc fst snd]. rewrite IH by done.
  destruct (String.eqb_spec k k0) as [->|Hne].
  - destruct (assoc k0 src) as [v|] eqn:E.
    + destruct Hnin. apply list_elem_of_In.
      apply assoc_Some_In in E. by apply (in_map fst) in E.
    + apply assoc_set_same.
  - destruct (assoc k src); [done|]. by apply assoc_set_other.
Qed.

Lemma assign_fresh src : forall acc,
  NoDup (map fst src) ->
  (forall k, In k (map fst src) -> ~ In k (map fst acc)) ->
  assign acc src = acc ++ src.
Proof.
  unfold assign.
  induction src as [|[k0 v0] src IH]; intros acc Hnd Hd.
  - by rewrite app_nil_r.
  - cbn [map fst] in Hnd. apply NoDup_cons in Hnd as [Hnin Hnd].
    cbn [fold_left fst snd].
    rewrite assoc_set_notin by (apply Hd; by left).
    rewrite IH, <- app_assoc; [done|done|].
    intros k Hk. rewrite map_app, in_app_iff. cbn. intros [Hin|[<-|[]]].
    + apply (Hd k); [by right|done].
    + by apply Hnin, list_elem_of_In.
Qed.

Lemma assign_nil src : NoDup (map fst src) -> assign [] src = src.
Proof. intros Hnd. rewrite assign_fresh; [done|done|by intros ? _ []]. Qed.

Lemma obj_ok_NoDup h fs : obj_ok h (OObj fs) = true -> NoDup (map fst fs).
Proof. cbn. intros [H _]%andb_prop. by apply bool_decide_eq_true in H. Qed.

Lemma filter_key_notin k (fs : list (string * value)) :
  ~ In k (map fst fs) ->
  List.filter (fun kv => negb (String.eqb kv.1 k)) fs = fs.
Proof.
  induction fs as [|[k0 v0] fs IH]; cbn [List.filter map fst In]; [done|].
  intros Hnin. destruct (String.eqb_spec k0 k) as [->|_]; [tauto|].
  cbn [negb]. rewrite IH; [done|tauto].
Qed.

Lemma setParam_string h c k v fs :
  h !! params c = Some (OObj fs) ->
  NoDup (map fst fs) ->
  setParam h c (VStr k) v =
    (h ++ [OObj [(k, v)]; OObj (assoc_set k v fs)],
     with_params c (S (List.length h))).
Proof.
  intros Hp Hnd. unfold setParam, extend, alloc. cbn [typeof_object allPairs].
  rewrite (lookup_app_l_Some _ _ _ _ Hp), lookup_alloc, assign_nil by done.
  rewrite <- app_assoc, length_app. cbn [app List.length].
  by replace (List.length h + 1)%nat with (S (List.length h)) by lia.
Qed.

Lemma NoDup_filter_keys (f : string * value -> bool) fs :
  NoDup (map fst fs) -> NoDup (map fst (List.filter f fs)).
Proof.
  induction fs as [|kv fs IH]; cbn [List.filter map]; [done|].
  intros [Hnin Hnd]%NoDup_cons. destruct (f kv); [|by apply IH].
  cbn [map]. apply NoDup_cons. split; [|by apply IH].
  intros Hin%list_elem_of_In. apply Hnin, list_elem_of_In.
  apply in_map_iff in Hin as (x & <- & Hx%filter_In). apply in_map. tauto.
Qed.

Lemma unsetParam_string h c k fs :
  h !! params c = Some (OObj fs) ->
  NoDup (map fst fs) ->
  unsetParam h c (VStr k) =
    (h ++ [OObj (List.filter (fun kv => negb (String.eqb kv.1 k)) fs)],
     with_params c (List.length h)).
Proof.
  intros Hp Hnd. unfold unsetParam, omit, alloc. cbn [allPairs].
  rewrite Hp, assign_nil; [done|]. by apply NoDup_filter_keys.
Qed.

(** X16: [setParam(k, v)] with a string [k] makes [params] a new object in
    which [k] is [v] and every other parameter is what it was; the object
    that held the parameters before, and every other object, is left as it
    was, and no other field of the collection changes. *)
Theorem setParam_sets_one_param h c k v fs h' c' :
  heap_ok h = true ->
  h !! params c = Some (OObj fs) ->
  setParam h c (VStr k) v = (h', c') ->
  getProp h' (VRef (params c')) k = Ok v /\
  (forall k', k' <> k ->
     getProp h' (VRef (params c')) k' = getProp h (VRef (params c)) k') /\
  heap_le h h' /\
  (List.length h <= params c')%nat /\
  c' = with_params c (params c').
Proof.
  intros Hok Hp.
  pose proof (obj_ok_NoDup _ _ (heap_ok_lookup _ _ _ Hok Hp)) as Hnd.
  rewrite (setParam_string _ _ _ _ _ Hp Hnd). intros [= <- <-].
  cbn [params with_params].
  assert ((h ++ [OObj [(k, v)]; OObj (assoc_set k v fs)]) !! S (List.length h)
          = Some (OObj (assoc_set k v fs))) as Hnew.
  { rewrite lookup_app_r by lia.
    by replace (S (List.length h) - List.length h)%nat with 1%nat by lia. }
  split; [by rewrite (getProp_obj _ _ _ _ Hnew), assoc_set_same|].
  split.
  { intros k' Hne.
    by rewrite (getProp_obj _ _ _ _ Hnew), assoc_set_other,
      (getProp_obj _ _ _ _ Hp). }
  split; [intros l o Hl; by apply lookup_app_l_Some|].
  split; [lia|done].
Qed.

Lemma setParam_sets_one_param_witness :
  getProp (one_param ++ [OObj [("page", VNum 1)];
                         OObj [("q", VStr "x"); ("page", VNum 1)]])
          (VRef (params (with_params (prototype 0) 2))) "page" = Ok (VNum 1) /\
  (forall k', k' <> "page" ->
     getProp (one_param ++ [OObj [("page", VNum 1)];
                            OObj [("q", VStr "x"); ("page", VNum 1)]])
             (VRef (params (with_params (prototype 0) 2))) k'
     = getProp one_param (VRef (params (prototype 0))) k') /\
  heap_le one_param
          (one_param ++ [OObj [("page", VNum 1)];
                         OObj [("q", VStr "x"); ("page", VNum 1)]]) /\
  (List.length one_param <= params (with_params (prototype 0) 2))%nat /\
  with_params (prototype 0) 2 =
    with_params (prototype 0) (params (with_params (prototype 0) 2)).
Proof.
  apply (setParam_sets_one_param one_param (prototype 0) "page" (VNum 1)
           [("q", VStr "x")]);
    [vm_compute; reflexivity | reflexivity | reflexivity].
Defined.

(** X17: setting a parameter that was not there and unsetting it again
    gives [params] an object with the parameters there were, in the same
    order; it is a new object, not the one [params] referred to before,
    which is itself left as it was. *)
Theorem setParam_unsetParam_round_trip h c k v fs h1 c1 h2 c2 :
  heap_ok h = true ->
  h !! params c = Some (OObj fs) ->
  assoc k fs = None ->
  setParam h c (VStr k) v = (h1, c1) ->
  unsetParam h1 c1 (VStr k) = (h2, c2) ->
  h2 !! params c2 = Some (OObj fs) /\
  params c2 <> params c /\
  h2 !! params c = Some (OObj fs) /\
  c2 = with_params c (params c2).
Proof.
  intros Hok Hp Hk.
  pose proof (obj_ok_NoDup _ _ (heap_ok_lookup _ _ _ Hok Hp)) as Hnd.
  pose proof (lookup_lt_Some _ _ _ Hp) as Hlt.
  apply assoc_None_notin in Hk.
  rewrite (setParam_string _ _ _ _ _ Hp Hnd). intros [= <- <-].
  rewrite assoc_set_notin by done.
  rewrite (unsetParam_string _ _ _ (fs ++ [(k, v)])); cycle 1.
  { cbn [params with_params]. rewrite lookup_app_r by lia.
    by replace (S (List.length h) - List.length h)%nat with 1%nat by lia. }
  { rewrite map_app. apply NoDup_app. split; [done|].
    split; [|apply NoDup_singleton].
    intros x Hx ->%list_elem_of_singleton. by apply Hk, list_elem_of_In. }
  intros [= <- <-]. cbn [params with_params].
  rewrite List.filter_app, filter_key_notin by done.
  cbn [List.filter fst]. rewrite String.eqb_refl. cbn [negb].
  rewrite app_nil_r.
  split; [apply lookup_alloc|]. split; [rewrite length_app; lia|].
  split; [|done]. by do 2 apply lookup_app_l_Some.
Qed.

Lemma setParam_unsetParam_round_trip_witness :
  (one_param ++ [OObj [("page", VNum 1)];
                 OObj [("q", VStr "x"); ("page", VNum 1)];
                 OObj [("q", VStr "x")]])
    !! params (with_params (prototype 0) 3) = Some (OObj [("q", VStr "x")]) /\
  params (with_params (prototype 0) 3) <> params (prototype 0) /\
  (one_param ++ [OObj [("page", VNum 1)];
                 OObj [("q", VStr "x"); ("page", VNum 1)];
                 OObj [("q", VStr "x")]])
    !! params (prototype 0) = Some (OObj [("q", VStr "x")]) /\
  with_params (prototype 0) 3 =
    with_params (prototype 0) (params (with_params (prototype 0) 3)).
Proof.
  apply (setParam_unsetParam_round_trip one_param (prototype 0) "page"
           (VNum 1) [("q", VStr "x")]
           (one_param ++ [OObj [("page", VNum 1)];
                          OObj [("q", VStr "x"); ("page", VNum 1)]])
           (with_params (prototype 0) 2));
    [vm_compute; reflexivity | reflexivity | reflexivity | reflexivity
    | reflexivity].
Defined.

(** X18: [setParam(obj)] with an object makes [params] a new object that
    holds the parameters of [obj] and, for every other name, what [params]
    held before; the second argument is not looked at, and the two objects
    read are left as they were. *)
Theorem setParam_hash_merges h c l ignored fs gs h' c' :
  heap_ok h = true ->
  h !! params c = Some (OObj fs) ->
  h !! l = Some (OObj gs) ->
  setParam h c (VRef l) ignored = (h', c') ->
  (forall k, getProp h' (VRef (params c')) k =
     Ok (match assoc k gs with
         | Some v => v
         | None => or_undef (assoc k fs)
         end)) /\
  params c' = List.length h /\
  heap_le h h'.
Proof.
  intros Hok Hp Hl.
  pose proof (obj_ok_NoDup _ _ (heap_ok_lookup _ _ _ Hok Hp)) as Hnd.
  pose proof (obj_ok_NoDup _ _ (heap_ok_lookup _ _ _ Hok Hl)) as Hndg.
  unfold setParam, extend, alloc. cbn [typeof_object allPairs].
  rewrite Hp, Hl, assign_nil by done. intros [= <- <-].
  cbn [params with_params]. split; [|split; [done|apply heap_le_alloc]].
  intros k. erewrite getProp_obj by apply lookup_alloc.
  rewrite assign_assoc by done. by destruct (assoc k gs).
Qed.

Lemma setParam_hash_merges_witness :
  (forall k,
     getProp (one_param ++ [OObj [("q", VStr "y"); ("n", VNum 2)];
                            OObj [("q", VStr "y"); ("n", VNum 2)]])
             (VRef (params (with_params (prototype 0) 2))) k =
     Ok (match assoc k [("q", VStr "y"); ("n", VNum 2)] with
         | Some v => v
         | None => or_undef (assoc k [("q", VStr "x")])
         end)) /\
  params (with_params (prototype 0) 2) =
    List.length (one_param ++ [OObj [("q", VStr "y"); ("n", VNum 2)]]) /\
  heap_le (one_param ++ [OObj [("q", VStr "y"); ("n", VNum 2)]])
          (one_param ++ [OObj [("q", VStr "y"); ("n", VNum 2)];
                         OObj [("q", VStr "y"); ("n", VNum 2)]]).
Proof.
  apply (setParam_hash_merges
           (one_param ++ [OObj [("q", VStr "y"); ("n", VNum 2)]])
           (prototype 0) 1%nat VUndef [("q", VStr "x")]
           [("q", VStr "y"); ("n", VNum 2)]);
    [vm_compute; reflexivity | reflexivity | reflexivity | reflexivity].
Defined.

Lemma params_methods_append h c key v h' c' :
  setParam h c key v = (h', c') \/
  unsetParam h c key = (h', c') \/
  resetParams h c = (h', c') ->
  exists ext, h' = h ++ ext.
Proof.
  unfold setParam, unsetParam, resetParams, extend, omit, alloc.
  intros [H|[H|H]].
  - destruct key; cbn [typeof_object] in H; injection H as <- _;
      try (by eexists); try (exists []; by rewrite app_nil_r).
    rewrite <- app_assoc. by eexists.
  - destruct key; injection H as <- _;
      try (by eexists); exists []; by rewrite app_nil_r.
  - injection H as <- _. by eexists.
Qed.

(** X19: [setParam], [unsetParam] and [resetParams] never write to an
    object that exists: they make [params] refer to a new one.  So the
    parameters of any other collection, also of one whose [params] is the
    same object (as the [params] of the prototype is for all collections
    made without the option), read as before. *)
Theorem params_of_other_collections_kept h c1 c2 key v h' c1' :
  (params c2 < List.length h)%nat ->
  setParam h c1 key v = (h', c1') \/
  unsetParam h c1 key = (h', c1') \/
  resetParams h c1 = (h', c1') ->
  h' !! params c2 = h !! params c2 /\
  (forall k, getProp h' (VRef (params c2)) k = getProp h (VRef (params c2)) k) /\
  (params c1' = params c1 \/ (List.length h <= params c1')%nat).
Proof.
  intros Hlt H.
  destruct (params_methods_append _ _ _ _ _ _ H) as [ext ->].
  assert ((h ++ ext) !! params c2 = h !! params c2) as Hsame
    by by apply lookup_app_l.
  split; [done|]. split; [intros k; by apply getProp_lookup|].
  revert H. unfold setParam, unsetParam, resetParams, extend, omit, alloc.
  intros [H|[H|H]].
  - destruct key; cbn [typeof_object] in H; injection H as _ <-;
      cbn [params with_params]; try (by left); right;
      rewrite ?length_app; lia.
  - destruct key; injection H as _ <-; cbn [params with_params];
      try (by left); right; lia.
  - injection H as _ <-. right. cbn [params with_params]. lia.
Qed.

Lemma params_of_other_collections_kept_witness :
  (one_param ++ [OObj [("page", VNum 1)];
                 OObj [("q", VStr "x"); ("page", VNum 1)]])
    !! params (prototype 0) = one_param !! params (prototype 0) /\
  (forall k,
     getProp (one_param ++ [OObj [("page", VNum 1)];
                            OObj [("q", VStr "x"); ("page", VNum 1)]])
             (VRef (params (prototype 0))) k
     = getProp one_param (VRef (params (prototype 0))) k) /\
  (params (with_params (prototype 0) 2) = params (prototype 0) \/
   (List.length one_param <= params (with_params (prototype 0) 2))%nat).
Proof.
  apply (params_of_other_collections_kept one_param (prototype 0)
           (prototype 0) (VStr "page") (VNum 1)).
  - cbn. lia.
  - left. reflexivity.
Defined.
